(** * Infinity-Polyhedra firmware: topology engine, LED mapping, render pipeline

    A shallow embedding of the C sources

      - [led/led_render.c]       (module [Render])
      - [led/led_mapping.c]      (module [Mapping])
      - [polyhedron/polyhedron.c] (module [Topology])

    Machine integers are [Z] with the wrap-around of their C type written
    out ([u8], [u16], [u32]).  Arrays are lists of their allocated length;
    every indexed access is bounds-checked and an access outside the
    allocation (undefined behaviour in C) makes the computation return
    [None].  [float] is IEEE-754 binary32, computed by [SpecFloat]. *)

From Stdlib Require Import ZArith Lia List Bool.
From Corelib Require Import SpecFloat.
From stdpp Require Import base option list numbers.

Open Scope Z_scope.

(* ===================================================================== *)
(** * Part I: definitions                                                 *)
(* ===================================================================== *)

(** ** C integer types *)

Definition u8  (x : Z) : Z := x mod 2 ^ 8.
Definition u16 (x : Z) : Z := x mod 2 ^ 16.
Definition u32 (x : Z) : Z := x mod 2 ^ 32.

(** ** Arrays: bounds-checked element access *)

Definition load {A} (arr : list A) (i : Z) : option A :=
  if 0 <=? i then arr !! Z.to_nat i else None.

Fixpoint store_at {A} (arr : list A) (n : nat) (x : A) : option (list A) :=
  match arr with
  | [] => None
  | y :: arr' =>
      match n with
      | O => Some (x :: arr')
      | Datatypes.S n' => arr'' ← store_at arr' n' x; Some (y :: arr'')
      end
  end.

Definition store {A} (arr : list A) (i : Z) (x : A) : option (list A) :=
  if 0 <=? i then store_at arr (Z.to_nat i) x else None.

(** ** Counted loops

    [for_range lo hi body s] is [for (i = lo; i < hi; ++i) body], with the
    loop-carried variables in [s].  Every loop of the sources has a bound
    that is fixed while the loop runs and fits the counter's type. *)

Fixpoint for_loop {S : Type} (n : nat) (i : Z)
    (body : Z -> S -> option S) (s : S) : option S :=
  match n with
  | O => Some s
  | Datatypes.S n' => s' ← body i s; for_loop n' (i + 1) body s'
  end.

Definition for_range {S : Type} (lo hi : Z)
    (body : Z -> S -> option S) (s : S) : option S :=
  for_loop (Z.to_nat (hi - lo)) lo body s.

(** Loops that can leave early ([break], or [return] from inside). *)

Inductive ctl (S : Type) : Type :=
| Continue (s : S)
| Break (s : S).
Arguments Continue {S} s.
Arguments Break {S} s.

Fixpoint for_loop_brk {S : Type} (n : nat) (i : Z)
    (body : Z -> S -> option (ctl S)) (s : S) : option S :=
  match n with
  | O => Some s
  | Datatypes.S n' =>
      match body i s with
      | None => None
      | Some (Break s') => Some s'
      | Some (Continue s') => for_loop_brk n' (i + 1) body s'
      end
  end.

Definition for_range_brk {S : Type} (lo hi : Z)
    (body : Z -> S -> option (ctl S)) (s : S) : option S :=
  for_loop_brk (Z.to_nat (hi - lo)) lo body s.

(* --------------------------------------------------------------------- *)
(** ** led_render.c                                                        *)
(* --------------------------------------------------------------------- *)

Module Render.

(** [LED_RENDER_MAX_ALLOC], led_render.h (config.h leaves the default). *)
Definition LED_RENDER_MAX_ALLOC : Z := 16 * 1024.

(** [LED_COLOR_ORDER] = "GRB", as character codes. *)
Definition LED_COLOR_ORDER : list Z := [71; 82; 66].

Record rgb_8b := { r : Z; g : Z; b : Z }.

(** [sizeof(rgb_8b)]: three [uint8_t], no padding. *)
Definition sizeof_rgb_8b : Z := 3.

(** The private state of led_render.c.  A pointer is [None] when NULL and
    otherwise holds the contents of its allocation.  [spi_arr] keeps the
    handles it was given (one opaque id per strip). *)
Record state := {
  pixels_total   : Z;                      (* uint16_t *)
  pixels_per_str : Z;                      (* uint16_t *)
  strip_cnt      : Z;                      (* uint8_t  *)
  spi_arr        : option (list Z);
  framebuffer    : option (list rgb_8b);
  strip_buffer   : option (list Z);
  render_ready   : bool;
  encode_tbl     : list Z;                 (* uint32_t[256] *)
  color_map      : list Z;                 (* uint8_t[3]    *)
  gamma8         : list Z                  (* uint8_t[256]  *)
}.

(** The state at program start: zero-initialised statics. *)
Definition initial : state :=
  {| pixels_total := 0; pixels_per_str := 0; strip_cnt := 0;
     spi_arr := None; framebuffer := None; strip_buffer := None;
     render_ready := false;
     encode_tbl := replicate 256 0; color_map := replicate 3 0;
     gamma8 := replicate 256 0 |}.

Definition set_framebuffer (fb : option (list rgb_8b)) (st : state) : state :=
  {| pixels_total := st.(pixels_total); pixels_per_str := st.(pixels_per_str);
     strip_cnt := st.(strip_cnt); spi_arr := st.(spi_arr);
     framebuffer := fb; strip_buffer := st.(strip_buffer);
     render_ready := st.(render_ready); encode_tbl := st.(encode_tbl);
     color_map := st.(color_map); gamma8 := st.(gamma8) |}.

Definition set_render_ready (rdy : bool) (st : state) : state :=
  {| pixels_total := st.(pixels_total); pixels_per_str := st.(pixels_per_str);
     strip_cnt := st.(strip_cnt); spi_arr := st.(spi_arr);
     framebuffer := st.(framebuffer); strip_buffer := st.(strip_buffer);
     render_ready := rdy; encode_tbl := st.(encode_tbl);
     color_map := st.(color_map); gamma8 := st.(gamma8) |}.

(** [free_buffers]: both buffers released, both pointers NULL. *)
Definition free_buffers (st : state) : state :=
  {| pixels_total := st.(pixels_total); pixels_per_str := st.(pixels_per_str);
     strip_cnt := st.(strip_cnt); spi_arr := st.(spi_arr);
     framebuffer := None; strip_buffer := None;
     render_ready := st.(render_ready); encode_tbl := st.(encode_tbl);
     color_map := st.(color_map); gamma8 := st.(gamma8) |}.

(** *** init_encode_tbl *)

(** The inner loop [for (int b = 7; b >= 0; --b)], [n] iterations left,
    so the current bit index is [n - 1]. *)
Fixpoint encode_bits (n : nat) (v out : Z) : Z :=
  match n with
  | O => out
  | Datatypes.S n' =>
      let out1 := u32 (Z.shiftl out 3) in
      let out2 :=
        Z.lor out1
          (if negb (Z.land (Z.shiftr v (Z.of_nat n')) 1 =? 0) then 6 else 4) in
      encode_bits n' v out2
  end.

Definition init_encode_tbl (tbl : list Z) : option (list Z) :=
  for_range 0 256 (fun v tbl => store tbl v (encode_bits 8 v 0)) tbl.

(** *** init_color_map *)

Definition init_color_map (cm : list Z) : option (list Z) :=
  for_range 0 3 (fun i cm =>
    ch ← load LED_COLOR_ORDER i;
    store cm i (if ch =? 82 then 0 else if ch =? 71 then 1
                else if ch =? 66 then 2 else 0)) cm.

(** *** init_render

    [malloc_fb] and [malloc_sb] tell whether the two [malloc] calls
    succeed.  [gamma_table] is what [buildGammaTable(GAMMA_CORRECTION)]
    leaves in [gamma8]: it is computed with [powf], which has no integer
    model, so the table is taken as given.  [size_t] is 32 bits wide on
    the target.  The result is the returned [bool] and the new state;
    [None] would be an access outside a table. *)

Definition init_render (gamma_table : list Z) (malloc_fb malloc_sb : bool)
    (st : state) (total_pixels strip_count : Z) (spi_handles : option (list Z))
    : option (bool * state) :=
  let st := set_render_ready false st in
  if (total_pixels =? 0) || (strip_count =? 0) || negb (bool_decide (is_Some spi_handles))
  then Some (false, st)
  else
    let pt  := total_pixels in
    let sc  := strip_count in
    let pps := u16 ((pt + sc - 1) / sc) in
    let st :=
      {| pixels_total := pt; pixels_per_str := pps; strip_cnt := sc;
         spi_arr := st.(spi_arr); framebuffer := st.(framebuffer);
         strip_buffer := st.(strip_buffer); render_ready := st.(render_ready);
         encode_tbl := st.(encode_tbl); color_map := st.(color_map);
         gamma8 := st.(gamma8) |} in
    let fb_bytes := u32 (sizeof_rgb_8b * pt) in
    let sb_bytes := u32 (sc * (pps * 9 + 1)) in
    let alloc_total := u32 (fb_bytes + sb_bytes) in
    if negb (LED_RENDER_MAX_ALLOC =? 0) && (LED_RENDER_MAX_ALLOC <? alloc_total)
    then Some (false, st)
    else
      let st := free_buffers st in
      let st :=
        {| pixels_total := pt; pixels_per_str := pps; strip_cnt := sc;
           spi_arr := spi_handles;
           framebuffer :=
             if malloc_fb then Some (replicate (Z.to_nat pt) {| r := 0; g := 0; b := 0 |})
             else None;
           strip_buffer :=
             if malloc_sb then Some (replicate (Z.to_nat sb_bytes) 0) else None;
           render_ready := st.(render_ready);
           encode_tbl := st.(encode_tbl); color_map := st.(color_map);
           gamma8 := st.(gamma8) |} in
      if negb (malloc_fb && malloc_sb)
      then Some (false, free_buffers st)
      else
        tbl ← init_encode_tbl st.(encode_tbl);
        cm ← init_color_map st.(color_map);
        Some (true,
              {| pixels_total := pt; pixels_per_str := pps; strip_cnt := sc;
                 spi_arr := st.(spi_arr); framebuffer := st.(framebuffer);
                 strip_buffer := st.(strip_buffer); render_ready := true;
                 encode_tbl := tbl; color_map := cm; gamma8 := gamma_table |}).

Definition led_render_shutdown (st : state) : state :=
  set_render_ready false (free_buffers st).

(** *** Pixel write API

    Each call yields the framebuffer cells it touched, in order, and the
    state it leaves; the state is [None] when a touched cell lies outside
    the allocation or the pointer is NULL. *)

Inductive fb_access := FbRead (idx : Z) | FbWrite (idx : Z).

Record outcome := { trace : list fb_access; final : option state }.

Definition fb_load (st : state) (idx : Z) : option rgb_8b :=
  fb ← st.(framebuffer); load fb idx.

Definition fb_store (st : state) (idx : Z) (c : rgb_8b) : option state :=
  fb ← st.(framebuffer); fb' ← store fb idx c; Some (set_framebuffer (Some fb') st).

Definition qadd8 (a b : Z) : Z :=
  let s := u8 (a + b) in
  if s <? a then 255 else s.

Definition set_all_pixels_color (st : state) (r g b : Z) : outcome :=
  if negb st.(render_ready) then {| trace := []; final := Some st |}
  else
    {| trace := (fun i => FbWrite i) <$> seqZ 0 st.(pixels_total);
       final :=
         for_range 0 st.(pixels_total)
           (fun i st => fb_store st i {| r := r; g := g; b := b |}) st |}.

Definition set_pixel_color (st : state) (idx r g b : Z) : outcome :=
  if negb st.(render_ready) || (st.(pixels_total) <=? idx)
  then {| trace := []; final := Some st |}
  else {| trace := [FbWrite idx];
          final := fb_store st idx {| r := r; g := g; b := b |} |}.

Definition add_pixel_color (st : state) (idx r g b : Z) : outcome :=
  if Z.lor (Z.lor r g) b =? 0 then {| trace := []; final := Some st |}
  else
    {| trace := [FbRead idx; FbWrite idx];
       final :=
         c ← fb_load st idx;
         fb_store st idx
           {| r := qadd8 c.(Render.r) r; g := qadd8 c.(Render.g) g;
              b := qadd8 c.(Render.b) b |} |}.

Definition subtract_pixel_color (st : state) (idx r g b : Z) : outcome :=
  {| trace := [FbRead idx; FbWrite idx];
     final :=
       c ← fb_load st idx;
       fb_store st idx
         {| r := if c.(Render.r) >? r then u8 (c.(Render.r) - r) else 0;
            g := if c.(Render.g) >? g then u8 (c.(Render.g) - g) else 0;
            b := if c.(Render.b) >? b then u8 (c.(Render.b) - b) else 0 |} |}.

(** A call is a no-op when it touches no framebuffer cell and returns
    with the state it was given. *)
Definition no_op (st : state) (o : outcome) : Prop :=
  o.(trace) = [] ∧ o.(final) = Some st.

(** *** Reading a 24-bit code back

    The table has no decoder in the sources; this one is the check the
    specification describes: each 3-bit group is compared with [100] and
    [110], most significant group first. *)

Definition code_group (code : Z) (k : Z) : Z :=
  Z.land (Z.shiftr code (3 * (7 - k))) 7.

Definition spec_decode_group (grp : Z) : option Z :=
  if grp =? 4 then Some 0 else if grp =? 6 then Some 1 else None.

Fixpoint spec_decode_from (n : nat) (k : Z) (code acc : Z) : option Z :=
  match n with
  | O => Some acc
  | Datatypes.S n' =>
      bit ← spec_decode_group (code_group code k);
      spec_decode_from n' (k + 1) code (2 * acc + bit)
  end.

Definition spec_decode (code : Z) : option Z := spec_decode_from 8 0 code 0.

(** What the table entry [code] of [v] has to satisfy: it fits 24 bits, its
    [k]-th group from the top is [100] or [110] after bit [7 - k] of [v],
    and reading it back gives [v]. *)
Definition encode_entry_ok (v code : Z) : bool :=
  (0 <=? code) && (code <? 2 ^ 24)
  && forallb (fun k => code_group code k =? (if Z.testbit v (7 - k) then 6 else 4))
       (seqZ 0 8)
  && bool_decide (spec_decode code = Some v).

(** Ceiling of [a / b] for positive [b], by floor division of the negation. *)
Definition ceil_div (a b : Z) : Z := - ((- a) / b).

(** A renderer brought up for four pixels on one strip, and the same
    renderer after shutdown. *)
Definition demo_ready : option state :=
  snd <$> init_render (replicate 256 0) true true initial 4 1 (Some [0]).

Definition demo_shutdown : option state := led_render_shutdown <$> demo_ready.

End Render.

(* --------------------------------------------------------------------- *)
(** ** led_mapping.c                                                       *)
(* --------------------------------------------------------------------- *)

Module Mapping.

Record PixelMapping := { edge : Z; phys : Z }.          (* uint8_t, uint16_t *)

Record EdgeLedInfo := { start : Z; count : Z; step : Z }. (* uint16_t x2, int8_t *)

(** The private state of led_mapping.c; a pointer is [None] when NULL. *)
Record state := {
  leds_per_edge : option (list Z);             (* uint8_t *, len = E *)
  edge_map      : option (list Z);             (* uint8_t *, len = E *)
  flip_map      : option (list bool);          (* bool *,    len = E *)
  pixel_map     : option (list PixelMapping);  (* len = total_pixels *)
  edge_info     : option (list EdgeLedInfo);   (* len = E *)
  pixels_total  : Z;                           (* uint16_t *)
  edge_cnt      : Z                            (* uint8_t  *)
}.

Definition set_pixel_map (pm : option (list PixelMapping)) (st : state) : state :=
  {| leds_per_edge := st.(leds_per_edge); edge_map := st.(edge_map);
     flip_map := st.(flip_map); pixel_map := pm; edge_info := st.(edge_info);
     pixels_total := st.(pixels_total); edge_cnt := st.(edge_cnt) |}.

Definition set_edge_info (ei : option (list EdgeLedInfo)) (st : state) : state :=
  {| leds_per_edge := st.(leds_per_edge); edge_map := st.(edge_map);
     flip_map := st.(flip_map); pixel_map := st.(pixel_map); edge_info := ei;
     pixels_total := st.(pixels_total); edge_cnt := st.(edge_cnt) |}.

Definition set_flip_map (fm : option (list bool)) (st : state) : state :=
  {| leds_per_edge := st.(leds_per_edge); edge_map := st.(edge_map);
     flip_map := fm; pixel_map := st.(pixel_map); edge_info := st.(edge_info);
     pixels_total := st.(pixels_total); edge_cnt := st.(edge_cnt) |}.

(** Element read through a pointer that may be NULL. *)
Definition deref {A} (p : option (list A)) (i : Z) : option A :=
  arr ← p; load arr i.

(** [base = 0; for (i = 0; i < phys; ++i) base += leds_per_edge[i];]
    (the same loop in both builders). *)
Definition block_base (lpe : option (list Z)) (phys : Z) : option Z :=
  for_range 0 phys (fun i base => n ← deref lpe i; Some (u16 (base + n))) 0.

(** The body of the pixel loop of [mapping_build_pixel_map]; the loop
    carries [pixel_map]'s contents and [px_idx]. *)
Definition write_pixel (logical led_cnt base : Z) (rev : bool) (i : Z)
    (s : list PixelMapping * Z) : option (list PixelMapping * Z) :=
  let offset := u16 (if rev then led_cnt - 1 - i else i) in
  pm ← store (fst s) (snd s) {| edge := logical; phys := u16 (base + offset) |};
  Some (pm, u16 (snd s + 1)).

Definition mapping_build_pixel_map (st : state) : option state :=
  match st.(pixel_map), st.(leds_per_edge) with
  | Some pm, Some _ =>
      s ← for_range 0 st.(edge_cnt) (fun logical s =>
             led_cnt ← deref st.(leds_per_edge) logical;
             phys ← deref st.(edge_map) logical;
             rev ← deref st.(flip_map) logical;
             base ← block_base st.(leds_per_edge) phys;
             for_range 0 led_cnt (write_pixel logical led_cnt base rev) s)
           (pm, 0);
      Some (set_pixel_map (Some (fst s)) st)
  | _, _ => Some st
  end.

Definition build_edge_index_map (st : state) : option state :=
  ei ← for_range 0 st.(edge_cnt) (fun e ei =>
          phys_strip ← deref st.(edge_map) e;
          base ← block_base st.(leds_per_edge) phys_strip;
          cnt ← deref st.(leds_per_edge) e;
          rev ← deref st.(flip_map) e;
          let start := if rev : bool then u16 (base + cnt - 1) else u16 base in
          let step := if rev then -1 else 1 in
          arr ← ei;
          arr' ← store arr e {| start := start; count := cnt; step := step |};
          Some (Some arr'))
        st.(edge_info);
  Some (set_edge_info ei st).

Definition update_mappings (st : state) : option state :=
  st1 ← mapping_build_pixel_map st; build_edge_index_map st1.

(** The edit [fmap[e] = !fmap[e]] made through [mapping_edit_flip_map()]. *)
Definition toggle_flip (e : Z) (st : state) : option state :=
  fm ← st.(flip_map);
  x ← load fm e;
  fm' ← store fm e (negb x);
  Some (set_flip_map (Some fm') st).

(** *** The state [init_mapping] hands to [update_mappings]

    All five arrays allocated, [E = edge_cnt] entries each ([pixel_map]:
    [pixels_total] entries), LED counts within [uint8_t], [edge_map]
    entries naming blocks [0 .. E-1], and [pixels_total] the sum of the
    LED counts, as [compute_leds_per_edge] accumulates it. *)

Definition sumZ (l : list Z) : Z := foldr Z.add 0 l.

Definition initialised (st : state) : bool :=
  match st.(leds_per_edge), st.(edge_map), st.(flip_map),
        st.(pixel_map), st.(edge_info) with
  | Some lpe, Some em, Some fm, Some pm, Some ei =>
      (0 <=? st.(edge_cnt)) && (st.(edge_cnt) <? 256)
      && (Z.of_nat (length lpe) =? st.(edge_cnt))
      && (Z.of_nat (length em) =? st.(edge_cnt))
      && (Z.of_nat (length fm) =? st.(edge_cnt))
      && (Z.of_nat (length ei) =? st.(edge_cnt))
      && (Z.of_nat (length pm) =? st.(pixels_total))
      && (st.(pixels_total) =? sumZ lpe)
      && forallb (fun n => (0 <=? n) && (n <? 256)) lpe
      && forallb (fun k => (0 <=? k) && (k <? st.(edge_cnt))) em
  | _, _, _, _, _ => false
  end.

(** The same, as a proposition naming the five arrays. *)
Definition well_formed (st : state) (lpe em : list Z) (fm : list bool)
    (pm : list PixelMapping) (ei : list EdgeLedInfo) : Prop :=
  st = {| leds_per_edge := Some lpe; edge_map := Some em; flip_map := Some fm;
          pixel_map := Some pm; edge_info := Some ei;
          pixels_total := sumZ lpe; edge_cnt := Z.of_nat (length lpe) |} /\
  Z.of_nat (length lpe) < 256 /\
  length em = length lpe /\ length fm = length lpe /\ length ei = length lpe /\
  Z.of_nat (length pm) = sumZ lpe /\
  Forall (fun n => 0 <= n < 256) lpe /\
  Forall (fun k => 0 <= k < Z.of_nat (length lpe)) em.

(** [edge_map] is a permutation of [0, E). *)
Definition is_permutation (em : list Z) : bool :=
  forallb (fun k => bool_decide (k ∈ em)) (seqZ 0 (Z.of_nat (length em))).

(** The pixels of logical edge [e], in the order [pixel_map] lists them. *)
Definition pixels_of_edge (e : Z) (pm : list PixelMapping) : list PixelMapping :=
  filter (fun px => px.(edge) = e) pm.

(** *** The layout the two builders share, written as lists

    Pixel [i] of logical edge [j] sits at [base + i], or at
    [base + cnt - 1 - i] when the edge is flipped, with [base] the sum of
    [leds_per_edge[0 .. edge_map[j])]. *)

Definition spec_base (lpe em : list Z) (j : Z) : Z :=
  sumZ (take (Z.to_nat (em !!! Z.to_nat j)) lpe).

Definition block_cell (j cnt base : Z) (rev : bool) (i : Z) : PixelMapping :=
  {| edge := j; phys := base + (if rev then cnt - 1 - i else i) |}.

Definition block_cells (j cnt base : Z) (rev : bool) : list PixelMapping :=
  block_cell j cnt base rev <$> seqZ 0 cnt.

Definition spec_block (lpe em : list Z) (fm : list bool) (j : Z) : list PixelMapping :=
  block_cells j (lpe !!! Z.to_nat j) (spec_base lpe em j) (fm !!! Z.to_nat j).

Fixpoint spec_layout (lpe em : list Z) (fm : list bool) (k : nat) : list PixelMapping :=
  match k with
  | O => []
  | Datatypes.S k' => spec_layout lpe em fm k' ++ spec_block lpe em fm (Z.of_nat k')
  end.

Definition spec_info (lpe em : list Z) (fm : list bool) (j : Z) : EdgeLedInfo :=
  let cnt := lpe !!! Z.to_nat j in
  if fm !!! Z.to_nat j : bool
  then {| start := u16 (spec_base lpe em j + cnt - 1); count := cnt; step := -1 |}
  else {| start := u16 (spec_base lpe em j); count := cnt; step := 1 |}.

(** The state [update_mappings] leaves, from the three tables alone. *)
Definition spec_state (lpe em : list Z) (fm : list bool) : state :=
  {| leds_per_edge := Some lpe; edge_map := Some em; flip_map := Some fm;
     pixel_map := Some (spec_layout lpe em fm (length lpe));
     edge_info := Some (spec_info lpe em fm <$> seqZ 0 (Z.of_nat (length lpe)));
     pixels_total := sumZ lpe; edge_cnt := Z.of_nat (length lpe) |}.

(** *** Sample states *)

Definition blank_pixel : PixelMapping := {| edge := 0; phys := 0 |}.
Definition blank_info : EdgeLedInfo := {| start := 0; count := 0; step := 0 |}.

(** A solid with three edges of 12, 24 and 24 LEDs whose first two
    strips are wired in swapped order. *)
Definition swapped_strips : state :=
  {| leds_per_edge := Some [12; 24; 24];
     edge_map := Some [1; 0; 2];
     flip_map := Some [false; false; false];
     pixel_map := Some (replicate 60 blank_pixel);
     edge_info := Some (replicate 3 blank_info);
     pixels_total := 60; edge_cnt := 3 |}.

(** The same solid wired in order, middle strip reversed. *)
Definition flipped_strip : state :=
  {| leds_per_edge := Some [12; 24; 24];
     edge_map := Some [0; 1; 2];
     flip_map := Some [false; true; false];
     pixel_map := Some (replicate 60 blank_pixel);
     edge_info := Some (replicate 3 blank_info);
     pixels_total := 60; edge_cnt := 3 |}.

(** How often physical slot [k] occurs in [pixel_map]. *)
Definition occurrences (k : Z) (pm : list PixelMapping) : nat :=
  length (filter (fun px => px.(phys) = k) pm).

End Mapping.

(* --------------------------------------------------------------------- *)
(** ** polyhedron.c                                                        *)
(* --------------------------------------------------------------------- *)

Module Topology.

Definition POLY_MAX_V  : Z := 200.
Definition POLY_MAX_E  : Z := 300.
Definition POLY_MAX_F  : Z := 120.
Definition POLY_MAX_FV : Z := 10.

(** *** float: IEEE-754 binary32 *)

Definition float : Type := spec_float.

Definition f_of_Z (n : Z) : float := binary_normalize 24 128 n 0 false.
Definition f_add : float -> float -> float := SFadd 24 128.
Definition f_sub : float -> float -> float := SFsub 24 128.
Definition f_mul : float -> float -> float := SFmul 24 128.
Definition f_div : float -> float -> float := SFdiv 24 128.
Definition f_sqrt : float -> float := SFsqrt 24 128.
Definition f_gt (x y : float) : bool := SFltb y x.

(** [float[3]] *)
Definition vec3 : Type := float * float * float.

Definition v_zero : vec3 := (f_of_Z 0, f_of_Z 0, f_of_Z 0).

Definition v_add (d s : vec3) : vec3 :=
  let '(d0, d1, d2) := d in
  let '(s0, s1, s2) := s in
  (f_add d0 s0, f_add d1 s1, f_add d2 s2).

Definition v_scale (d : vec3) (k : float) : vec3 :=
  let '(d0, d1, d2) := d in (f_mul d0 k, f_mul d1 k, f_mul d2 k).

Definition v_len (v : vec3) : float :=
  let '(v0, v1, v2) := v in
  f_sqrt (f_add (f_add (f_mul v0 v0) (f_mul v1 v1)) (f_mul v2 v2)).

Definition v_lerp (a b : vec3) (t : float) : vec3 :=
  let '(a0, a1, a2) := a in
  let '(b0, b1, b2) := b in
  (f_add a0 (f_mul t (f_sub b0 a0)),
   f_add a1 (f_mul t (f_sub b1 a1)),
   f_add a2 (f_mul t (f_sub b2 a2))).

(** *** Data structures *)

Record Edge := { a : Z; b : Z }.             (* uint16_t a, b *)

Record Polyhedron := {
  V   : Z;                 (* uint8_t *)
  v   : list vec3;         (* float   [POLY_MAX_V][3] *)
  F   : Z;                 (* uint8_t *)
  fv  : list Z;            (* uint8_t [POLY_MAX_F] *)
  f   : list (list Z);     (* uint8_t [POLY_MAX_F][POLY_MAX_FV] *)
  E   : Z;                 (* uint8_t *)
  e   : list Edge;         (* Edge    [POLY_MAX_E] *)
  e2f : list (Z * Z)       (* uint8_t [POLY_MAX_E][2] *)
}.

Definition set_V (x : Z) (p : Polyhedron) : Polyhedron :=
  {| V := x; v := p.(Topology.v); F := p.(Topology.F); fv := p.(Topology.fv);
     f := p.(Topology.f); E := p.(Topology.E); e := p.(Topology.e);
     e2f := p.(Topology.e2f) |}.
Definition set_v (x : list vec3) (p : Polyhedron) : Polyhedron :=
  {| V := p.(Topology.V); v := x; F := p.(Topology.F); fv := p.(Topology.fv);
     f := p.(Topology.f); E := p.(Topology.E); e := p.(Topology.e);
     e2f := p.(Topology.e2f) |}.
Definition set_F (x : Z) (p : Polyhedron) : Polyhedron :=
  {| V := p.(Topology.V); v := p.(Topology.v); F := x; fv := p.(Topology.fv);
     f := p.(Topology.f); E := p.(Topology.E); e := p.(Topology.e);
     e2f := p.(Topology.e2f) |}.
Definition set_fv (x : list Z) (p : Polyhedron) : Polyhedron :=
  {| V := p.(Topology.V); v := p.(Topology.v); F := p.(Topology.F); fv := x;
     f := p.(Topology.f); E := p.(Topology.E); e := p.(Topology.e);
     e2f := p.(Topology.e2f) |}.
Definition set_f (x : list (list Z)) (p : Polyhedron) : Polyhedron :=
  {| V := p.(Topology.V); v := p.(Topology.v); F := p.(Topology.F);
     fv := p.(Topology.fv); f := x; E := p.(Topology.E); e := p.(Topology.e);
     e2f := p.(Topology.e2f) |}.
Definition set_E (x : Z) (p : Polyhedron) : Polyhedron :=
  {| V := p.(Topology.V); v := p.(Topology.v); F := p.(Topology.F);
     fv := p.(Topology.fv); f := p.(Topology.f); E := x; e := p.(Topology.e);
     e2f := p.(Topology.e2f) |}.
Definition set_e (x : list Edge) (p : Polyhedron) : Polyhedron :=
  {| V := p.(Topology.V); v := p.(Topology.v); F := p.(Topology.F);
     fv := p.(Topology.fv); f := p.(Topology.f); E := p.(Topology.E); e := x;
     e2f := p.(Topology.e2f) |}.
Definition set_e2f (x : list (Z * Z)) (p : Polyhedron) : Polyhedron :=
  {| V := p.(Topology.V); v := p.(Topology.v); F := p.(Topology.F);
     fv := p.(Topology.fv); f := p.(Topology.f); E := p.(Topology.E);
     e := p.(Topology.e); e2f := x |}.

(** [p->f[fidx][i]] and [p->f[fidx][i] = x]. *)
Definition load2 (arr : list (list Z)) (i j : Z) : option Z :=
  row ← load arr i; load row j.

Definition store2 (arr : list (list Z)) (i j x : Z) : option (list (list Z)) :=
  row ← load arr i; row' ← store row j x; store arr i row'.

(** [memcpy(dst, src, n)] for [n] leading elements. *)
Definition memcpy {A} (dst src : list A) : option (list A) :=
  if (length src <=? length dst)%nat
  then Some (src ++ drop (length src) dst) else None.

(** What [poly_alloc] returns: a [Polyhedron] filled with zero bytes. *)
Definition zeroed : Polyhedron :=
  {| V := 0; v := replicate (Z.to_nat POLY_MAX_V) v_zero;
     F := 0; fv := replicate (Z.to_nat POLY_MAX_F) 0;
     f := replicate (Z.to_nat POLY_MAX_F) (replicate (Z.to_nat POLY_MAX_FV) 0);
     E := 0; e := replicate (Z.to_nat POLY_MAX_E) {| a := 0; b := 0 |};
     e2f := replicate (Z.to_nat POLY_MAX_E) (0, 0) |}.

(** *** Core functions *)

Definition poly_normalize (p : Polyhedron) : option Polyhedron :=
  sum ← for_range 0 p.(V) (fun i sum =>
           vi ← load p.(v) i; Some (f_add sum (v_len vi))) (f_of_Z 0);
  let inv := f_div (f_of_Z 1) (f_div sum (f_of_Z p.(V))) in
  v' ← for_range 0 p.(V) (fun i vs =>
          vi ← load vs i; store vs i (v_scale vi inv)) p.(v);
  Some (set_v v' p).

Definition poly_radial_normalize (p : Polyhedron) : option Polyhedron :=
  v' ← for_range 0 p.(V) (fun i vs =>
          vi ← load vs i;
          let r := v_len vi in
          if f_gt r (f_of_Z 0)
          then store vs i (v_scale vi (f_div (f_of_Z 1) r))
          else Some vs) p.(v);
  Some (set_v v' p).

Definition poly_face_centroid (p : Polyhedron) (fidx : Z) : option vec3 :=
  n ← load p.(fv) fidx;
  out ← for_range 0 n (fun j out =>
           vj ← load2 p.(f) fidx j;
           pt ← load p.(v) vj;
           Some (v_add out pt)) v_zero;
  Some (v_scale out (f_div (f_of_Z 1) (f_of_Z n))).

(** *** Topology builder *)

(** [for (e = 0; e < p->E; ++e) if (p->e[e].a == a && p->e[e].b == b) break;]
    The loop carries [e]; it is [p->E] when no entry matches. *)
Definition search_edge (p : Polyhedron) (va vb : Z) : option Z :=
  for_range_brk 0 p.(E) (fun ei _ =>
    ed ← load p.(e) ei;
    if (ed.(a) =? va) && (ed.(b) =? vb) then Some (Break ei)
    else Some (Continue (ei + 1))) 0.

(** The body of the loop over the corners [i] of face [fi]. *)
Definition build_edges_corner (fi n i : Z) (p : Polyhedron)
    : option (ctl Polyhedron) :=
  a0 ← load2 p.(f) fi i;
  b0 ← load2 p.(f) fi ((i + 1) mod n);
  let va := if a0 >? b0 then b0 else a0 in
  let vb := if a0 >? b0 then a0 else b0 in
  ei ← search_edge p va vb;
  if (ei =? p.(E)) && (p.(E) >=? POLY_MAX_E) then Some (Break p)
  else
    p1 ← (if ei =? p.(E)
          then e' ← store p.(e) ei {| a := va; b := vb |};
               Some (set_E (u8 (p.(E) + 1)) (set_e e' p))
          else Some p);
    adj ← load p1.(e2f) ei;
    e2f' ← (if fst adj =? 255 then store p1.(e2f) ei (fi, snd adj)
            else store p1.(e2f) ei (fst adj, fi));
    Some (Continue (set_e2f e2f' p1)).

Definition _build_edges (p : Polyhedron) : option Polyhedron :=
  let p := set_E 0 p in
  let p := set_e2f (replicate (Z.to_nat POLY_MAX_E) (255, 255)) p in
  for_range 0 p.(F) (fun fi p =>
    n ← load p.(fv) fi;
    for_range_brk 0 n (build_edges_corner fi n) p) p.

Definition poly_prepare (p : Polyhedron) : option Polyhedron :=
  p ← poly_normalize p;
  let p := set_e2f (replicate (Z.to_nat POLY_MAX_E) (255, 255)) p in
  _build_edges p.

(** *** Edge accessors *)

(** [for (e = 0; e < p->E; ++e) if (...) return e;  return 0xFF;] *)
Definition find_edge_loop (p : Polyhedron) (va vb : Z) : option Z :=
  for_range_brk 0 p.(E) (fun ei _ =>
    ed ← load p.(e) ei;
    if (ed.(a) =? va) && (ed.(b) =? vb) then Some (Break ei)
    else Some (Continue 255)) 255.

Definition poly_find_edge (p : Polyhedron) (v0 v1 : Z) : option Z :=
  let '(v0, v1) := if v0 >? v1 then (v1, v0) else (v0, v1) in
  find_edge_loop p v0 v1.

(** The canonical pair of an undirected edge. *)
Definition canonical (v0 v1 : Z) : Edge := {| a := Z.min v0 v1; b := Z.max v0 v1 |}.

(** The layout of the struct: every array has its declared extent. *)
Definition shape (p : Polyhedron) : bool :=
  (length p.(v) =? Z.to_nat POLY_MAX_V)%nat
  && (length p.(fv) =? Z.to_nat POLY_MAX_F)%nat
  && (length p.(f) =? Z.to_nat POLY_MAX_F)%nat
  && forallb (fun row => (length row =? Z.to_nat POLY_MAX_FV)%nat) p.(f)
  && (length p.(e) =? Z.to_nat POLY_MAX_E)%nat
  && (length p.(e2f) =? Z.to_nat POLY_MAX_E)%nat.

(** *** The edge table as a function of the faces

    [_build_edges] visits the corners of every face in order and enters
    the canonical pair of each corner and its successor unless the table
    has it already; the [uint8_t] count [E] starts again from 0 after 255. *)

#[global] Instance Edge_eq_dec : EqDecision Edge.
Proof. solve_decision. Defined.

Definition add_edge (tbl : list Edge) (pair : Edge) : list Edge :=
  if decide (pair ∈ tbl) then tbl
  else if decide (Z.of_nat (length tbl) + 1 < 256) then tbl ++ [pair]
  else [].

Definition corner (p : Polyhedron) (fi i : Z) : Z :=
  (p.(f) !!! Z.to_nat fi) !!! Z.to_nat i.

Definition face_pairs (p : Polyhedron) (fi : Z) : list Edge :=
  let n := p.(fv) !!! Z.to_nat fi in
  (fun i => canonical (corner p fi i) (corner p fi ((i + 1) mod n))) <$> seqZ 0 n.

Definition all_pairs (p : Polyhedron) : list Edge :=
  concat (face_pairs p <$> seqZ 0 p.(F)).

Definition edge_table (p : Polyhedron) : list Edge :=
  foldl add_edge [] (all_pairs p).

(** The edge tables have their extent and [E] is a [uint8_t]. *)
Definition tables_ok (p : Polyhedron) : Prop :=
  length p.(e) = 300%nat /\ length p.(e2f) = 300%nat /\ 0 <= p.(E) < 256.

(** [q] has the vertices and faces of [p]. *)
Definition same_faces (p q : Polyhedron) : Prop :=
  q.(V) = p.(V) /\ q.(F) = p.(F) /\ q.(fv) = p.(fv) /\ q.(f) = p.(f).

(** The face arrays have their extent, [F] faces fit, and each of them
    has at most [POLY_MAX_FV] corners. *)
Definition faces_fit (p : Polyhedron) : Prop :=
  length p.(fv) = 120%nat /\ length p.(f) = 120%nat /\
  Forall (fun row => length row = 10%nat) p.(f) /\
  0 <= p.(F) <= 120 /\
  forall fi, 0 <= fi < p.(F) -> 0 <= p.(fv) !!! Z.to_nat fi <= 10.

(** The arrays the operators write have their extent. *)
Definition laid_out (p : Polyhedron) : Prop :=
  length p.(v) = 200%nat /\ length p.(fv) = 120%nat /\ length p.(f) = 120%nat /\
  Forall (fun row => length row = 10%nat) p.(f) /\ length p.(e) = 300%nat.

(** The faces written so far have at most [POLY_MAX_FV] corners. *)
Definition sizes_ok (p : Polyhedron) : Prop :=
  forall g, 0 <= g < p.(F) -> 0 <= p.(fv) !!! Z.to_nat g <= 10.

(** *** Capacity

    The counts and the face sizes fit the arrays, and every corner names
    a vertex. *)
Definition capacity (p : Polyhedron) : bool :=
  shape p
  && (0 <=? p.(V)) && (p.(V) <=? POLY_MAX_V)
  && (0 <=? p.(F)) && (p.(F) <=? POLY_MAX_F)
  && forallb (fun n => (0 <=? n) && (n <=? POLY_MAX_FV))
       (take (Z.to_nat p.(F)) p.(fv)).

Definition corners_ok (p : Polyhedron) : bool :=
  forallb (fun fi =>
     forallb (fun i => (0 <=? corner p fi i) && (corner p fi i <? p.(V)))
       (seqZ 0 (p.(fv) !!! Z.to_nat fi)))
    (seqZ 0 p.(F)).

(** The edges of the table that end in vertex [vi]. *)
Definition touches (vi : Z) (ed : Edge) : bool :=
  (ed.(a) =? vi) || (ed.(b) =? vi).

Definition valence (p : Polyhedron) (vi : Z) : Z :=
  Z.of_nat (length (List.filter (touches vi) (take (Z.to_nat p.(E)) p.(e)))).

Definition valence_ok (p : Polyhedron) : bool :=
  forallb (fun vi => valence p vi <=? POLY_MAX_FV) (seqZ 0 p.(V)).

(** [p] is what [poly_prepare] returned for some polyhedron within
    capacity. *)
Definition prepared (p : Polyhedron) : Prop :=
  exists q, capacity q = true /\ poly_prepare q = Some p.

(** *** Seeds *)

Definition vec3_of_Z (x y z : Z) : vec3 := (f_of_Z x, f_of_Z y, f_of_Z z).

Definition _seed_tri (p : Polyhedron) (Vs : list vec3) (vcnt : Z)
    (Fs : list (list Z)) (fcnt : Z) : option Polyhedron :=
  let p := set_V vcnt p in
  v' ← memcpy p.(v) (take (Z.to_nat vcnt) Vs);
  let p := set_v v' p in
  let p := set_F fcnt p in
  for_range 0 fcnt (fun i p =>
    fv' ← store p.(fv) i 3;
    src ← load Fs i;
    row ← load p.(f) i;
    row' ← memcpy row (take 3 src);
    f' ← store p.(f) i row';
    Some (set_f f' (set_fv fv' p))) p.

Definition tetrahedron_V : list vec3 :=
  [vec3_of_Z 1 1 1; vec3_of_Z 1 (-1) (-1); vec3_of_Z (-1) 1 (-1);
   vec3_of_Z (-1) (-1) 1].
Definition tetrahedron_F : list (list Z) :=
  [[0;1;2]; [0;3;1]; [0;2;3]; [1;3;2]].

Definition poly_init_tetrahedron (p : Polyhedron) : option Polyhedron :=
  p ← _seed_tri p tetrahedron_V 4 tetrahedron_F 4;
  p ← poly_radial_normalize p;
  poly_prepare p.

Definition cube_V : list vec3 :=
  [vec3_of_Z 1 1 1; vec3_of_Z 1 1 (-1); vec3_of_Z 1 (-1) 1; vec3_of_Z 1 (-1) (-1);
   vec3_of_Z (-1) 1 1; vec3_of_Z (-1) 1 (-1); vec3_of_Z (-1) (-1) 1;
   vec3_of_Z (-1) (-1) (-1)].

(** The cube's seed: 12 triangles. *)
Definition cube_F : list (list Z) :=
  [[0;2;3]; [0;3;1]; [4;5;7]; [4;7;6];
   [0;1;5]; [0;5;4]; [2;6;7]; [2;7;3];
   [0;4;6]; [0;6;2]; [1;3;7]; [1;7;5]].

Definition poly_init_cube (p : Polyhedron) : option Polyhedron :=
  p ← _seed_tri p cube_V 8 cube_F 12;
  p ← poly_radial_normalize p;
  poly_prepare p.

(** The cube as 6 quads. *)
Definition cube4_F : list (list Z) :=
  [[0;2;3;1]; [4;5;7;6]; [0;1;5;4]; [2;6;7;3]; [0;4;6;2]; [1;3;7;5]].

Definition poly_init_cube4 (p : Polyhedron) : option Polyhedron :=
  let p := set_V 8 p in
  v' ← memcpy p.(v) cube_V;
  let p := set_v v' p in
  let p := set_F 6 p in
  p ← for_range 0 6 (fun i p =>
         fv' ← store p.(fv) i 4;
         src ← load cube4_F i;
         row ← load p.(f) i;
         row' ← memcpy row (take 4 src);
         f' ← store p.(f) i row';
         Some (set_f f' (set_fv fv' p))) p;
  p ← poly_radial_normalize p;
  poly_prepare p.

(** [PHI], the golden ratio [(1.0f + sqrtf(5.0f)) * 0.5f]. *)
Definition PHI : float :=
  f_mul (f_add (f_of_Z 1) (f_sqrt (f_of_Z 5))) (f_div (f_of_Z 1) (f_of_Z 2)).

Definition f_neg (x : float) : float := SFopp x.

Definition icosahedron_V : list vec3 :=
  let o := f_of_Z 0 in
  let i := f_of_Z 1 in
  let m := f_of_Z (-1) in
  [(o, i, PHI); (o, m, PHI); (o, i, f_neg PHI); (o, m, f_neg PHI);
   (i, PHI, o); (m, PHI, o); (i, f_neg PHI, o); (m, f_neg PHI, o);
   (PHI, o, i); (PHI, o, m); (f_neg PHI, o, i); (f_neg PHI, o, m)].

Definition icosahedron_F : list (list Z) :=
  [[0;1;8]; [0;8;4]; [0;4;5]; [0;5;10]; [0;10;1];
   [1;8;6]; [1;6;7]; [1;7;10];
   [2;3;11]; [2;11;5]; [2;5;4]; [2;4;9]; [2;9;3];
   [3;9;6]; [3;6;7]; [3;7;11];
   [4;8;9]; [5;11;10]; [6;8;9]; [7;10;11]].

Definition poly_init_icosahedron (p : Polyhedron) : option Polyhedron :=
  p ← _seed_tri p icosahedron_V 12 icosahedron_F 20;
  p ← poly_radial_normalize p;
  poly_prepare p.

(** The cube as [poly_init_cube] leaves it in a fresh buffer, and the
    seed it prepares. *)
Definition cube_seed : Polyhedron :=
  default zeroed (_seed_tri zeroed cube_V 8 cube_F 12 ≫= poly_radial_normalize).

Definition cube : Polyhedron := default zeroed (poly_prepare cube_seed).

(** A buffer that reports 240 vertices, the count step 2 of
    [poly_truncate] reaches on a solid of 120 edges. *)
Definition oversized : Polyhedron := set_V 240 zeroed.

(** Automatic arrays that happen to hold zeros. *)
Definition zero_junk (_ : Z) : Z := 0.

(** *** Operators

    Automatic arrays ([inc], [order], [cutA], [cutB]) are not
    initialised by the code: a fresh one of [n] bytes holds
    [junk 0 .. junk (n-1)], for an arbitrary [junk].  [avail] is the number
    of [Polyhedron] buffers the heap can still provide: [poly_alloc]
    returns NULL exactly when it is 0, and every function hands back what
    it took before it returns. *)

Section Operators.

Variable junk : Z -> Z.

Definition fresh (n : Z) : list Z := (fun i => u8 (junk i)) <$> seqZ 0 n.

(** [common]: how many pairs of corners of the two faces are equal. *)
Definition count_common (p : Polyhedron) (prev_face next_face : Z) : option Z :=
  np ← load p.(fv) prev_face;
  nn ← load p.(fv) next_face;
  for_range 0 np (fun ia common =>
    for_range 0 nn (fun ib common =>
      x ← load2 p.(f) prev_face ia;
      y ← load2 p.(f) next_face ib;
      Some (if x =? y then u8 (common + 1) else common)) common) 0.

(** The loop carries [order] and [used]. *)
Definition sort_incident_faces (p : Polyhedron) (vi : Z) (inc : list Z) (n : Z)
    (order : list Z) : option (list Z) :=
  let used := replicate (Z.to_nat POLY_MAX_FV) false in
  order ← store order 0 0;
  used ← store used 0 true;
  s ← for_range 1 n (fun k s =>
         o ← load (fst s) (k - 1);
         prev_face ← load inc o;
         for_range_brk 0 n (fun j s =>
           u ← load (snd s) j;
           if u : bool then Some (Continue s)
           else
             next_face ← load inc j;
             common ← count_common p prev_face next_face;
             if common =? 2
             then order' ← store (fst s) k j;
                  used' ← store (snd s) j true;
                  Some (Break (order', used'))
             else Some (Continue s)) s) (order, used);
  Some (fst s).

(** The faces incident on vertex [vi]: the loop carries [inc] and [cnt]. *)
Definition incident_faces (p : Polyhedron) (vi : Z) : option (list Z * Z) :=
  for_range 0 p.(F) (fun fi s =>
    n ← load p.(fv) fi;
    for_range_brk 0 n (fun j s =>
      x ← load2 p.(f) fi j;
      if x =? vi
      then inc' ← store (fst s) (snd s) (u8 fi);
           Some (Break (inc', u8 (snd s + 1)))
      else Some (Continue s)) s) (fresh POLY_MAX_FV, 0).

Definition poly_dual (p_in out : Polyhedron) : option Polyhedron :=
  if (p_in.(F) >? POLY_MAX_V) || (p_in.(V) >? POLY_MAX_F) then Some out
  else
    (* 1) face centroids -> new vertices *)
    let out := set_V p_in.(F) out in
    out ← for_range 0 p_in.(F) (fun fi out =>
             c ← poly_face_centroid p_in fi;
             v1 ← store out.(v) fi c;
             let r := v_len c in
             v2 ← (if f_gt r (f_of_Z 0)
                   then store v1 fi (v_scale c (f_div (f_of_Z 1) r))
                   else Some v1);
             Some (set_v v2 out)) out;
    (* 2) vertex stars -> new faces *)
    let out := set_F p_in.(V) out in
    out ← for_range 0 p_in.(V) (fun vi out =>
             s ← incident_faces p_in vi;
             let inc := fst s in
             let cnt := snd s in
             f' ← (if cnt >? 2
                   then order ← sort_incident_faces p_in vi inc cnt (fresh POLY_MAX_FV);
                        for_range 0 cnt (fun k fs =>
                          o ← load order k;
                          x ← load inc o;
                          store2 fs vi k x) out.(f)
                   else for_range 0 cnt (fun k fs =>
                          x ← load inc k;
                          store2 fs vi k x) out.(f));
             fv' ← store out.(fv) vi cnt;
             Some (set_fv fv' (set_f f' out))) out;
    (* 3) finalize *)
    out ← poly_radial_normalize out;
    poly_prepare out.

(** Step 2 of [poly_truncate]: two new vertices per edge.  The loop
    carries [out], [cutA] and [cutB]. *)
Definition truncate_cut_edge (tmp : Polyhedron) (t : float) (ei : Z)
    (s : Polyhedron * list Z * list Z) : option (Polyhedron * list Z * list Z) :=
  let '(out, cutA, cutB) := s in
  ed ← load tmp.(e) ei;
  let va := u8 ed.(a) in
  let vb := u8 ed.(b) in
  pa ← load tmp.(v) va;
  pb ← load tmp.(v) vb;
  v1 ← store out.(v) out.(V) (v_lerp pa pb t);
  cutA' ← store cutA ei out.(V);
  let out := set_V (u8 (out.(V) + 1)) (set_v v1 out) in
  v2 ← store out.(v) out.(V) (v_lerp pb pa t);
  cutB' ← store cutB ei out.(V);
  let out := set_V (u8 (out.(V) + 1)) (set_v v2 out) in
  Some (out, cutA', cutB').

(** [vi == tmp->e[eidx].a ? cutA[eidx] : cutB[eidx]] *)
Definition cut_near (tmp : Polyhedron) (cutA cutB : list Z) (vi eidx : Z)
    : option Z :=
  ed ← load tmp.(e) eidx;
  if vi =? ed.(a) then load cutA eidx else load cutB eidx.

(** Step 3a: one shrunk face per original face. *)
Definition truncate_face (tmp : Polyhedron) (cutA cutB : list Z) (fi : Z)
    (out : Polyhedron) : option Polyhedron :=
  n ← load tmp.(fv) fi;
  fv' ← store out.(fv) out.(F) n;
  let out := set_fv fv' out in
  out ← for_range 0 n (fun i out =>
           vi ← load2 tmp.(f) fi i;
           vj ← load2 tmp.(f) fi ((i + 1) mod n);
           let aa := if vi <? vj then vi else vj in
           let bb := if vi <? vj then vj else vi in
           eidx ← poly_find_edge tmp aa bb;
           x ← cut_near tmp cutA cutB vi eidx;
           f' ← store2 out.(f) out.(F) i x;
           Some (set_f f' out)) out;
  Some (set_F (u8 (out.(F) + 1)) out).

(** The edges incident on vertex [vi]: the loop carries [inc] and [cnt]. *)
Definition incident_edges (tmp : Polyhedron) (vi : Z) : option (list Z * Z) :=
  for_range 0 tmp.(E) (fun ei s =>
    ed ← load tmp.(e) ei;
    if (ed.(a) =? vi) || (ed.(b) =? vi)
    then inc' ← store (fst s) (snd s) (u8 ei);
         Some (inc', u8 (snd s + 1))
    else Some s) (fresh POLY_MAX_FV, 0).

(** Step 3b: one new face per original vertex. *)
Definition truncate_vertex (tmp : Polyhedron) (cutA cutB : list Z) (vi : Z)
    (out : Polyhedron) : option Polyhedron :=
  s ← incident_edges tmp vi;
  let inc := fst s in
  let cnt := snd s in
  fv' ← store out.(fv) out.(F) cnt;
  let out := set_fv fv' out in
  out ← for_range 0 cnt (fun k out =>
           eidx ← load inc k;
           x ← cut_near tmp cutA cutB vi eidx;
           f' ← store2 out.(f) out.(F) k x;
           Some (set_f f' out)) out;
  Some (set_F (u8 (out.(F) + 1)) out).

Definition poly_truncate (avail : nat) (p_in out : Polyhedron) (t : float)
    : option Polyhedron :=
  match avail with
  | O => Some out                       (* pool exhausted, just abort *)
  | Datatypes.S _ =>
      tmp ← poly_prepare p_in;
      (* 2) two new verts per edge *)
      let out := set_V 0 out in
      s ← for_range 0 tmp.(E) (truncate_cut_edge tmp t)
            (out, fresh POLY_MAX_E, fresh POLY_MAX_E);
      let '(out, cutA, cutB) := s in
      (* 3a) truncate each original face *)
      let out := set_F 0 out in
      out ← for_range 0 tmp.(F) (truncate_face tmp cutA cutB) out;
      (* 3b) one new face per original vertex *)
      out ← for_range 0 tmp.(V) (truncate_vertex tmp cutA cutB) out;
      (* 4) normalize and build topology *)
      out ← poly_radial_normalize out;
      poly_prepare out
  end.

(** *** Composite constructors *)

Definition poly_init_octahedron (avail : nat) (p : Polyhedron)
    : option Polyhedron :=
  match avail with
  | O => Some p
  | Datatypes.S _ =>
      tmp ← poly_init_cube4 zeroed;
      poly_dual tmp p
  end.

Definition poly_init_dodecahedron (avail : nat) (p : Polyhedron)
    : option Polyhedron :=
  match avail with
  | O => Some p
  | Datatypes.S _ =>
      tmp ← poly_init_icosahedron zeroed;
      poly_dual tmp p
  end.

Definition f_half : float := f_div (f_of_Z 1) (f_of_Z 2).

Definition poly_init_icosidodecahedron (avail : nat) (p : Polyhedron)
    : option Polyhedron :=
  match avail with
  | Datatypes.S (Datatypes.S rest) =>
      dode ← poly_init_dodecahedron rest zeroed;
      trunc ← poly_truncate rest dode zeroed f_half;
      Some trunc
  | _ => Some p
  end.

(** Everything [poly_init_rhombitruncated_icosidodecahedron] does once
    [tmp] holds the truncated seed: dualise into [p], then normalise and
    prepare [p]. *)
Definition rhombitruncated_finish (tmp p : Polyhedron) : option Polyhedron :=
  p ← poly_dual tmp p;
  p ← poly_radial_normalize p;
  poly_prepare p.

Definition poly_init_rhombitruncated_icosidodecahedron (avail : nat)
    (p : Polyhedron) : option Polyhedron :=
  match avail with
  | Datatypes.S (Datatypes.S rest) =>
      seed ← poly_init_icosidodecahedron rest zeroed;
      seed ← poly_radial_normalize seed;
      seed ← poly_prepare seed;
      tmp ← poly_truncate rest seed zeroed f_half;
      rhombitruncated_finish tmp p
  | _ => Some p
  end.

End Operators.

End Topology.

(* ===================================================================== *)
(** * Part II: properties                                                 *)
(* ===================================================================== *)

(** ** Loops *)

Lemma for_loop_inv {S : Type} (I : Z -> S -> Prop) (body : Z -> S -> option S) :
  forall (n : nat) (lo : Z) (s : S),
    I lo s ->
    (forall i s, lo <= i < lo + Z.of_nat n -> I i s ->
       exists s', body i s = Some s' /\ I (i + 1) s') ->
    exists s', for_loop n lo body s = Some s' /\ I (lo + Z.of_nat n) s'.
Proof.
  induction n as [|n IH]; intros lo s H0 Hstep.
  - exists s. split; [reflexivity|]. now replace (lo + Z.of_nat 0) with lo by lia.
  - destruct (Hstep lo s) as (s1 & Hb & H1); [lia|assumption|].
    destruct (IH (lo + 1) s1) as (s2 & Hl & H2); [assumption| |].
    + intros i t Hi. apply Hstep. lia.
    + exists s2. cbn [for_loop]. rewrite Hb. cbn. split; [exact Hl|].
      now replace (lo + Z.of_nat (Datatypes.S n)) with (lo + 1 + Z.of_nat n) by lia.
Qed.

Lemma for_range_inv {S : Type} (I : Z -> S -> Prop) (body : Z -> S -> option S)
    (lo hi : Z) (s : S) :
  lo <= hi ->
  I lo s ->
  (forall i s, lo <= i < hi -> I i s ->
     exists s', body i s = Some s' /\ I (i + 1) s') ->
  exists s', for_range lo hi body s = Some s' /\ I hi s'.
Proof.
  intros Hle H0 Hstep. unfold for_range.
  destruct (for_loop_inv I body (Z.to_nat (hi - lo)) lo s) as (s' & Hl & Hi);
    [assumption| |].
  - intros i t Hi. apply Hstep. lia.
  - exists s'. split; [exact Hl|].
    now replace (lo + Z.of_nat (Z.to_nat (hi - lo))) with hi in Hi by lia.
Qed.

Lemma for_loop_brk_inv {S : Type} (I : Z -> S -> Prop) (Q : S -> Prop)
    (body : Z -> S -> option (ctl S)) :
  forall (n : nat) (lo : Z) (s : S),
    I lo s ->
    (forall i s, lo <= i < lo + Z.of_nat n -> I i s ->
       (exists s', body i s = Some (Continue s') /\ I (i + 1) s') \/
       (exists s', body i s = Some (Break s') /\ Q s')) ->
    exists s', for_loop_brk n lo body s = Some s' /\
               (I (lo + Z.of_nat n) s' \/ Q s').
Proof.
  induction n as [|n IH]; intros lo s H0 Hstep.
  - exists s. split; [reflexivity|]. left.
    now replace (lo + Z.of_nat 0) with lo by lia.
  - destruct (Hstep lo s) as [(s1 & Hb & H1)|(s1 & Hb & H1)]; [lia|assumption| |].
    + destruct (IH (lo + 1) s1) as (s2 & Hl & H2); [assumption| |].
      * intros i t Hi. apply Hstep. lia.
      * exists s2. cbn [for_loop_brk]. rewrite Hb. split; [exact Hl|].
        now replace (lo + Z.of_nat (Datatypes.S n)) with (lo + 1 + Z.of_nat n) by lia.
    + exists s1. cbn [for_loop_brk]. rewrite Hb. auto.
Qed.

Lemma for_range_brk_inv {S : Type} (I : Z -> S -> Prop) (Q : S -> Prop)
    (body : Z -> S -> option (ctl S)) (lo hi : Z) (s : S) :
  lo <= hi ->
  I lo s ->
  (forall i s, lo <= i < hi -> I i s ->
     (exists s', body i s = Some (Continue s') /\ I (i + 1) s') \/
     (exists s', body i s = Some (Break s') /\ Q s')) ->
  exists s', for_range_brk lo hi body s = Some s' /\ (I hi s' \/ Q s').
Proof.
  intros Hle H0 Hstep. unfold for_range_brk.
  destruct (for_loop_brk_inv I Q body (Z.to_nat (hi - lo)) lo s) as (s' & Hl & Hi);
    [assumption| |].
  - intros i t Hi. apply Hstep. lia.
  - exists s'. split; [exact Hl|].
    now replace (lo + Z.of_nat (Z.to_nat (hi - lo))) with hi in Hi by lia.
Qed.

(** A loop whose bound is not above its start does nothing. *)
Lemma for_range_empty {S : Type} (body : Z -> S -> option S) lo hi s :
  hi <= lo -> for_range lo hi body s = Some s.
Proof.
  intros H. unfold for_range.
  replace (Z.to_nat (hi - lo)) with 0%nat by lia. reflexivity.
Qed.

Ltac loop_inv I :=
  match goal with
  | |- context [for_range ?lo ?hi ?body ?s] =>
      let r := fresh "r" in
      let Hrun := fresh "Hrun" in
      let Hinv := fresh "Hinv" in
      destruct (for_range_inv I body lo hi s) as (r & Hrun & Hinv);
      [ | | | rewrite Hrun ]
  end.

Ltac loop_brk_inv I Q :=
  match goal with
  | |- context [for_range_brk ?lo ?hi ?body ?s] =>
      let r := fresh "r" in
      let Hrun := fresh "Hrun" in
      let Hinv := fresh "Hinv" in
      destruct (for_range_brk_inv I Q body lo hi s) as (r & Hrun & Hinv);
      [ | | | rewrite Hrun ]
  end.

(** ** Arrays *)

Lemma store_at_spec {A} (arr : list A) (n : nat) (x : A) :
  store_at arr n x
  = if decide (n < length arr)%nat then Some (<[n := x]> arr) else None.
Proof.
  revert n. induction arr as [|y arr IH]; intros n.
  - cbn. destruct (decide (n < 0)%nat); [lia|reflexivity].
  - destruct n as [|n]; cbn [store_at length].
    + destruct (decide (0 < Datatypes.S (length arr))%nat); [reflexivity|lia].
    + rewrite IH.
      destruct (decide (n < length arr)%nat),
               (decide (Datatypes.S n < Datatypes.S (length arr))%nat);
        try lia; reflexivity.
Qed.

Lemma store_ok {A} (arr : list A) (i : Z) (x : A) :
  0 <= i < Z.of_nat (length arr) ->
  store arr i x = Some (<[Z.to_nat i := x]> arr).
Proof.
  intros [H0 H1]. unfold store. apply Z.leb_le in H0. rewrite H0.
  rewrite store_at_spec. destruct (decide _); [reflexivity|lia].
Qed.

Lemma store_Some {A} (arr arr' : list A) (i : Z) (x : A) :
  store arr i x = Some arr' ->
  0 <= i < Z.of_nat (length arr) /\ arr' = <[Z.to_nat i := x]> arr.
Proof.
  unfold store.
  destruct (Z.leb_spec 0 i); [|discriminate].
  rewrite store_at_spec. destruct (decide _); [|discriminate].
  intros [= <-]. split; [lia|reflexivity].
Qed.

Lemma load_ok {A} (arr : list A) (i : Z) :
  0 <= i < Z.of_nat (length arr) -> exists x, load arr i = Some x.
Proof.
  intros [H0 H1]. unfold load. apply Z.leb_le in H0. rewrite H0.
  apply lookup_lt_is_Some_2. lia.
Qed.

Lemma load_Some {A} (arr : list A) (i : Z) (x : A) :
  load arr i = Some x -> 0 <= i < Z.of_nat (length arr).
Proof.
  unfold load. destruct (Z.leb_spec 0 i) as [Hi|Hi]; [|discriminate].
  intros Hx%lookup_lt_Some. lia.
Qed.

Lemma load_insert_eq {A} (arr : list A) (i : Z) (x : A) :
  0 <= i < Z.of_nat (length arr) ->
  load (<[Z.to_nat i := x]> arr) i = Some x.
Proof.
  intros [H0 H1]. unfold load. apply Z.leb_le in H0. rewrite H0.
  apply list_lookup_insert_eq. lia.
Qed.

Lemma load_insert_ne {A} (arr : list A) (i j : Z) (x : A) :
  0 <= i -> 0 <= j -> i <> j ->
  load (<[Z.to_nat i := x]> arr) j = load arr j.
Proof.
  intros Hi Hj Hne. unfold load. destruct (0 <=? j); [|reflexivity].
  apply list_lookup_insert_ne. lia.
Qed.

Lemma load_total {A} `{Inhabited A} (l : list A) (j : Z) :
  0 <= j < Z.of_nat (length l) -> load l j = Some (l !!! Z.to_nat j).
Proof.
  intros [H0 H1]. unfold load. apply Z.leb_le in H0. rewrite H0.
  apply list_lookup_lookup_total_lt. lia.
Qed.

(** ** led_render.c *)

Module RenderFacts.
Import Render.

(** The guarded calls are no-ops outside their domain. *)
Lemma set_all_pixels_color_not_ready st r g b :
  st.(render_ready) = false -> no_op st (set_all_pixels_color st r g b).
Proof. intros H. unfold set_all_pixels_color. rewrite H. now split. Qed.

Lemma set_pixel_color_guard st idx r g b :
  st.(render_ready) = false \/ st.(pixels_total) <= idx ->
  no_op st (set_pixel_color st idx r g b).
Proof.
  intros H. unfold set_pixel_color.
  destruct H as [H|H].
  - rewrite H. now split.
  - apply Z.leb_le in H. rewrite H, orb_true_r. now split.
Qed.

Lemma ceil_div_formula a b : 0 < b -> (a + b - 1) / b = ceil_div a b.
Proof.
  intros Hb. unfold ceil_div.
  pose proof (Z.div_mod (a + b - 1) b ltac:(lia)) as H1.
  pose proof (Z.mod_pos_bound (a + b - 1) b Hb) as H2.
  pose proof (Z.div_mod (- a) b ltac:(lia)) as H3.
  pose proof (Z.mod_pos_bound (- a) b Hb) as H4.
  nia.
Qed.

Lemma ceil_div_bounds a b : 0 < b -> 0 <= a -> 0 <= ceil_div a b <= a.
Proof.
  intros Hb Ha. rewrite <- ceil_div_formula by assumption.
  split.
  - apply Z.div_pos; lia.
  - destruct (Z.eq_dec a 0) as [->|Hne].
    + rewrite Z.div_small; lia.
    + apply Z.div_le_upper_bound; nia.
Qed.

Lemma ceil_div_mul a b : 0 < b -> 0 <= a -> b * ceil_div a b <= a + b - 1.
Proof.
  intros Hb Ha. rewrite <- ceil_div_formula by assumption.
  apply Z.mul_div_le; lia.
Qed.

(** Whatever makes [init_render] return [false], the renderer is left
    not ready; a [true] return leaves it ready. *)
Lemma init_render_ready_iff gamma mfb msb st total strips handles ok st' :
  init_render gamma mfb msb st total strips handles = Some (ok, st') ->
  st'.(render_ready) = ok.
Proof.
  unfold init_render.
  destruct (_ || _ || _); [intros [= <- <-]; reflexivity|].
  destruct (_ && _); [intros [= <- <-]; reflexivity|].
  destruct (negb (mfb && msb)); [intros [= <- <-]; reflexivity|].
  destruct (init_encode_tbl _); cbn; [|discriminate].
  destruct (init_color_map _); cbn; [|discriminate].
  intros [= <- <-]. reflexivity.
Qed.

(** C8: [init_render] returns [false] when [total_pixels] is 0, when
    [strip_count] is 0, when [spi_handles] is NULL, and when the
    framebuffer bytes plus [strip_count * (ceil(total_pixels/strip_count)
    * 9 + 1)] strip-buffer bytes exceed [LED_RENDER_MAX_ALLOC]; in each of
    these cases [render_ready] is false afterwards. *)
Theorem init_render_rejects gamma mfb msb st total strips handles :
  0 <= total < 2 ^ 16 ->
  0 <= strips < 2 ^ 8 ->
  total = 0 \/ strips = 0 \/ handles = None \/
    LED_RENDER_MAX_ALLOC <
      sizeof_rgb_8b * total + strips * (ceil_div total strips * 9 + 1) ->
  exists st',
    init_render gamma mfb msb st total strips handles = Some (false, st') /\
    st'.(render_ready) = false.
Proof.
  intros Ht Hs Hbad.
  assert (Hgoal : exists st',
    init_render gamma mfb msb st total strips handles = Some (false, st')).
  { unfold init_render.
    destruct (Z.eqb_spec total 0) as [->|Hnt]; [eexists; reflexivity|].
    destruct (Z.eqb_spec strips 0) as [->|Hns]; [eexists; reflexivity|].
    destruct handles as [h|]; [|eexists; reflexivity].
    cbn [orb negb]. rewrite bool_decide_eq_true_2 by (eexists; reflexivity).
    cbn [negb].
    destruct Hbad as [?|[?|[?|Hbig]]]; try congruence.
    assert (Hsp : 0 < strips) by lia.
    pose proof (ceil_div_bounds total strips Hsp ltac:(lia)) as Hcb.
    pose proof (ceil_div_mul total strips Hsp ltac:(lia)) as Hcm.
    rewrite ceil_div_formula by assumption.
    unfold u16, u32, sizeof_rgb_8b in *.
    rewrite (Z.mod_small (ceil_div total strips)) by lia.
    rewrite (Z.mod_small (3 * total)) by lia.
    rewrite (Z.mod_small (strips * _)) by nia.
    rewrite (Z.mod_small (_ + _)) by nia.
    apply Z.ltb_lt in Hbig. rewrite Hbig. cbn. eexists; reflexivity. }
  destruct Hgoal as (st' & Hst'). exists st'. split; [assumption|].
  eapply init_render_ready_iff; eassumption.
Qed.

Lemma init_render_rejects_witness :
  exists st',
    init_render (replicate 256 0) true true initial 6000 1 (Some [0])
      = Some (false, st') /\
    st'.(render_ready) = false.
Proof.
  apply (init_render_rejects (replicate 256 0) true true initial 6000 1 (Some [0])).
  - lia.
  - lia.
  - right; right; right. vm_compute. reflexivity.
Defined.

(** The loop of [init_encode_tbl] fills every slot: slot [v] receives
    [encode_bits 8 v 0], whatever the table held before. *)
Lemma init_encode_tbl_fills tbl0 :
  length tbl0 = 256%nat ->
  exists tbl,
    init_encode_tbl tbl0 = Some tbl /\
    forall v, 0 <= v < 256 -> load tbl v = Some (encode_bits 8 v 0).
Proof.
  intros Hlen. unfold init_encode_tbl.
  destruct (for_range_inv
    (fun i tbl => length tbl = 256%nat /\
       forall v, 0 <= v < i -> load tbl v = Some (encode_bits 8 v 0))
    (fun v tbl => store tbl v (encode_bits 8 v 0)) 0 256 tbl0)
    as (tbl & Hrun & _ & Hall).
  - lia.
  - split; [assumption|]. intros v Hv. lia.
  - intros i tbl Hi [Hl Hprev].
    exists (<[Z.to_nat i := encode_bits 8 i 0]> tbl). split.
    + apply store_ok. lia.
    + split; [now rewrite length_insert|].
      intros v Hv. destruct (Z.eq_dec v i) as [->|Hne].
      * apply load_insert_eq. lia.
      * rewrite load_insert_ne by lia. apply Hprev. lia.
  - exists tbl. split; assumption.
Qed.

Lemma encode_entry_ok_spec v code :
  encode_entry_ok v code = true ->
  0 <= code < 2 ^ 24 /\
  (forall k, 0 <= k < 8 ->
     code_group code k = if Z.testbit v (7 - k) then 6 else 4) /\
  spec_decode code = Some v.
Proof.
  unfold encode_entry_ok. intros Hok.
  apply andb_prop in Hok as [Hok Hdec].
  apply andb_prop in Hok as [Hok Hgrp].
  apply andb_prop in Hok as [Hlo Hhi].
  apply Z.leb_le in Hlo. apply Z.ltb_lt in Hhi.
  apply bool_decide_eq_true in Hdec.
  split; [lia|]. split; [|assumption].
  intros k Hk. rewrite forallb_forall in Hgrp.
  apply Z.eqb_eq, Hgrp, list_elem_of_In, elem_of_seqZ. lia.
Qed.

Lemma encode_entries_checked :
  forallb (fun v => encode_entry_ok v (encode_bits 8 v 0)) (seqZ 0 256) = true.
Proof. vm_compute. reflexivity. Qed.

Lemma encode_entry_ok_all v :
  0 <= v < 256 -> encode_entry_ok v (encode_bits 8 v 0) = true.
Proof.
  intros Hv. pose proof encode_entries_checked as H.
  rewrite forallb_forall in H.
  apply (H v), list_elem_of_In, elem_of_seqZ. lia.
Qed.

(** C5: after [init_encode_tbl], for every byte [v] the entry
    [encode_tbl[v]] is a 24-bit value made of eight 3-bit groups, the
    group of the most significant bit of [v] first, each group [0b100]
    for a 0 bit and [0b110] for a 1 bit; reading the groups back gives
    [v], and two bytes with the same entry are equal. *)
Theorem encode_tbl_roundtrip tbl0 :
  length tbl0 = 256%nat ->
  exists tbl,
    init_encode_tbl tbl0 = Some tbl /\
    (forall v, 0 <= v < 256 ->
       exists code,
         load tbl v = Some code /\
         0 <= code < 2 ^ 24 /\
         (forall k, 0 <= k < 8 ->
            code_group code k = if Z.testbit v (7 - k) then 6 else 4) /\
         spec_decode code = Some v) /\
    (forall v w, 0 <= v < 256 -> 0 <= w < 256 ->
       load tbl v = load tbl w -> v = w).
Proof.
  intros Hlen. destruct (init_encode_tbl_fills tbl0 Hlen) as (tbl & Hrun & Hfill).
  exists tbl. split; [assumption|]. split.
  - intros v Hv. exists (encode_bits 8 v 0).
    split; [exact (Hfill v Hv)|].
    exact (encode_entry_ok_spec v _ (encode_entry_ok_all v Hv)).
  - intros v w Hv Hw Heq.
    rewrite (Hfill v Hv), (Hfill w Hw) in Heq.
    pose proof (encode_entry_ok_spec v _ (encode_entry_ok_all v Hv)) as (_ & _ & Hdv).
    pose proof (encode_entry_ok_spec w _ (encode_entry_ok_all w Hw)) as (_ & _ & Hdw).
    revert Heq Hdv Hdw.
    generalize (encode_bits 8 v 0), (encode_bits 8 w 0).
    intros cv cw Heq Hdv Hdw. congruence.
Qed.

Lemma encode_tbl_roundtrip_witness :
  exists tbl,
    init_encode_tbl (replicate 256 0) = Some tbl /\
    (forall v, 0 <= v < 256 ->
       exists code,
         load tbl v = Some code /\
         0 <= code < 2 ^ 24 /\
         (forall k, 0 <= k < 8 ->
            code_group code k = if Z.testbit v (7 - k) then 6 else 4) /\
         spec_decode code = Some v) /\
    (forall v w, 0 <= v < 256 -> 0 <= w < 256 ->
       load tbl v = load tbl w -> v = w).
Proof. apply (encode_tbl_roundtrip (replicate 256 0)). reflexivity. Defined.

(** C1, at its failing inputs: [add_pixel_color] and
    [subtract_pixel_color] test neither [render_ready] nor
    [idx >= pixels_total].  On the four-pixel renderer, index 4 is read
    and written outside the framebuffer; after shutdown, index 0 is read
    and written through the NULL framebuffer pointer. *)
Theorem add_subtract_pixel_color_unguarded :
  exists st_on st_off,
    demo_ready = Some st_on /\ demo_shutdown = Some st_off /\
    st_on.(render_ready) = true /\ st_on.(pixels_total) = 4 /\
    st_off.(render_ready) = false /\
    add_pixel_color st_on 4 1 0 0
      = {| trace := [FbRead 4; FbWrite 4]; final := None |} /\
    subtract_pixel_color st_on 4 1 0 0
      = {| trace := [FbRead 4; FbWrite 4]; final := None |} /\
    add_pixel_color st_off 0 1 0 0
      = {| trace := [FbRead 0; FbWrite 0]; final := None |} /\
    subtract_pixel_color st_off 0 1 0 0
      = {| trace := [FbRead 0; FbWrite 0]; final := None |} /\
    no_op st_on (set_pixel_color st_on 4 1 0 0) /\
    no_op st_off (set_pixel_color st_off 0 1 0 0) /\
    no_op st_off (set_all_pixels_color st_off 1 0 0).
Proof.
  eexists; eexists.
  split; [vm_compute; reflexivity|].
  split; [vm_compute; reflexivity|].
  repeat split; vm_compute; reflexivity.
Qed.

End RenderFacts.

(** ** led_mapping.c *)

Module MappingFacts.
Import Mapping.

(** *** Sums of LED counts *)

Lemma sumZ_app l1 l2 : sumZ (l1 ++ l2) = sumZ l1 + sumZ l2.
Proof. unfold sumZ. induction l1 as [|x l1 IH]; cbn; lia. Qed.

Lemma sumZ_bounds l :
  Forall (fun n => 0 <= n < 256) l -> 0 <= sumZ l <= 255 * Z.of_nat (length l).
Proof.
  induction l as [|x l IH]; intros H.
  - cbn. lia.
  - apply Forall_cons_1 in H as [Hx Hl]. specialize (IH Hl).
    change (sumZ (x :: l)) with (x + sumZ l). cbn [length]. lia.
Qed.

Lemma sumZ_take_S l n x :
  l !! n = Some x -> sumZ (take (Datatypes.S n) l) = sumZ (take n l) + x.
Proof.
  intros H. rewrite (take_S_r _ _ _ H), sumZ_app. cbn. lia.
Qed.

Lemma sumZ_take_le l n :
  Forall (fun n => 0 <= n < 256) l -> 0 <= sumZ (take n l) <= sumZ l.
Proof.
  intros H. rewrite <- (take_drop n l) at 3. rewrite sumZ_app.
  pose proof (sumZ_bounds (take n l) (Forall_take _ _ _ H)).
  pose proof (sumZ_bounds (drop n l) (Forall_drop _ _ _ H)). lia.
Qed.

(** *** What [initialised] says *)

Lemma forallb_range lo hi l :
  forallb (fun n => (lo <=? n) && (n <? hi)) l = true ->
  Forall (fun n => lo <= n < hi) l.
Proof.
  intros H. rewrite forallb_forall in H.
  apply List.Forall_forall. intros n Hn. apply H in Hn.
  apply andb_prop in Hn as [?%Z.leb_le ?%Z.ltb_lt]. lia.
Qed.

Lemma initialised_spec st :
  initialised st = true ->
  exists lpe em fm pm ei, well_formed st lpe em fm pm ei.
Proof.
  unfold initialised. destruct st as [olpe oem ofm opm oei pt ec]. cbn.
  destruct olpe as [lpe|]; [|discriminate].
  destruct oem as [em|]; [|discriminate].
  destruct ofm as [fm|]; [|discriminate].
  destruct opm as [pm|]; [|discriminate].
  destruct oei as [ei|]; [|discriminate].
  intros H.
  repeat (apply andb_prop in H as [H ?]).
  exists lpe, em, fm, pm, ei.
  repeat match goal with
  | H : (_ =? _) = true |- _ => apply Z.eqb_eq in H
  | H : (_ <=? _) = true |- _ => apply Z.leb_le in H
  | H : (_ <? _) = true |- _ => apply Z.ltb_lt in H
  | H : forallb _ _ = true |- _ => apply forallb_range in H
  end.
  unfold well_formed. subst.
  repeat split; try lia; try assumption; try congruence.
Qed.

(** *** The block-base loop *)

Lemma block_base_ok lpe phys :
  Forall (fun n => 0 <= n < 256) lpe ->
  Z.of_nat (length lpe) < 256 ->
  0 <= phys <= Z.of_nat (length lpe) ->
  block_base (Some lpe) phys = Some (sumZ (take (Z.to_nat phys) lpe)).
Proof.
  intros Hb Hlen Hp. unfold block_base.
  loop_inv (fun (i : Z) (base : Z) => base = sumZ (take (Z.to_nat i) lpe)).
  - lia.
  - reflexivity.
  - intros i base Hi ->.
    destruct (load_ok lpe i) as [n Hn]; [lia|].
    exists (u16 (sumZ (take (Z.to_nat i) lpe) + n)). split.
    + cbn. rewrite Hn. reflexivity.
    + assert (Hn' : lpe !! Z.to_nat i = Some n).
      { unfold load in Hn. destruct (0 <=? i); [assumption|discriminate]. }
      replace (Z.to_nat (i + 1)) with (Datatypes.S (Z.to_nat i)) by lia.
      rewrite (sumZ_take_S _ _ _ Hn').
      pose proof (sumZ_take_le lpe (Datatypes.S (Z.to_nat i)) Hb) as H1.
      rewrite (sumZ_take_S _ _ _ Hn') in H1.
      pose proof (sumZ_bounds lpe Hb) as H2.
      unfold u16. apply Z.mod_small. lia.
  - subst r. reflexivity.
Qed.

(** *** The pixel loop of one edge *)

Lemma write_pixels_ok logical cnt base rev pm px :
  0 <= px -> 0 <= cnt < 256 -> 0 <= base ->
  px + cnt <= Z.of_nat (length pm) ->
  px + cnt < 2 ^ 16 -> base + cnt < 2 ^ 16 ->
  for_range 0 cnt (write_pixel logical cnt base rev) (pm, px)
  = Some (take (Z.to_nat px) pm ++ block_cells logical cnt base rev
            ++ drop (Z.to_nat (px + cnt)) pm,
          px + cnt).
Proof.
  intros Hpx Hcnt Hbase Hlen Hpw Hbw.
  loop_inv (fun (i : Z) (s : list PixelMapping * Z) =>
    snd s = px + i /\ length (fst s) = length pm /\
    fst s = take (Z.to_nat px) pm
              ++ (block_cell logical cnt base rev <$> seqZ 0 i)
              ++ drop (Z.to_nat (px + i)) pm).
  - lia.
  - cbn [fst snd]. split; [lia|]. split; [reflexivity|].
    rewrite Z.add_0_r. cbn [seqZ fmap list_fmap app].
    change (seqZ 0 0) with (@nil Z). cbn [fmap list_fmap app].
    now rewrite take_drop.
  - intros i [pm' px'] Hi (Hs & Hl & Hpm). cbn [fst snd] in *. subst px'.
    exists (<[Z.to_nat (px + i) := block_cell logical cnt base rev i]> pm',
            px + (i + 1)). split.
    + unfold write_pixel, block_cell. cbn [fst snd].
      assert (Hoff : u16 (if rev then cnt - 1 - i else i)
                     = if rev then cnt - 1 - i else i).
      { unfold u16. apply Z.mod_small. destruct rev; lia. }
      rewrite Hoff.
      assert (Hph : u16 (base + (if rev then cnt - 1 - i else i))
                    = base + (if rev then cnt - 1 - i else i)).
      { unfold u16. apply Z.mod_small. destruct rev; lia. }
      rewrite Hph.
      rewrite store_ok by lia. cbn.
      unfold u16. rewrite Z.mod_small by lia. f_equal. f_equal. lia.
    + cbn [fst snd]. split; [reflexivity|]. split; [now rewrite length_insert|].
      rewrite Hpm.
      assert (Hta : length (take (Z.to_nat px) pm) = Z.to_nat px).
      { rewrite length_take. lia. }
      assert (Hbl : length (block_cell logical cnt base rev <$> seqZ 0 i)
                    = Z.to_nat i).
      { now rewrite length_fmap, length_seqZ. }
      rewrite insert_app_r_alt by lia.
      rewrite insert_app_r_alt by lia.
      rewrite Hta, Hbl.
      replace (Z.to_nat (px + i) - Z.to_nat px - Z.to_nat i)%nat with 0%nat by lia.
      destruct (lookup_lt_is_Some_2 pm (Z.to_nat (px + i))) as [c Hc]; [lia|].
      rewrite (drop_S _ _ _ Hc). cbn [insert list_insert].
      replace (Datatypes.S (Z.to_nat (px + i))) with (Z.to_nat (px + (i + 1))) by lia.
      rewrite seqZ_app by lia. rewrite fmap_app.
      rewrite <- !app_assoc. reflexivity.
  - destruct r as [pm' px']. cbn [fst snd] in Hinv.
    destruct Hinv as (-> & _ & ->). reflexivity.
Qed.

Lemma length_block_cells j cnt base rev :
  length (block_cells j cnt base rev) = Z.to_nat cnt.
Proof. unfold block_cells. now rewrite length_fmap, length_seqZ. Qed.

(** *** The two builders compute the shared layout *)

Section Layout.

Variables (lpe em : list Z) (fm : list bool).
Hypothesis Hsmall : Z.of_nat (length lpe) < 256.
Hypothesis Hem : length em = length lpe.
Hypothesis Hfm : length fm = length lpe.
Hypothesis Hcnt : Forall (fun n => 0 <= n < 256) lpe.
Hypothesis Hblk : Forall (fun k => 0 <= k < Z.of_nat (length lpe)) em.

Lemma led_count_range j :
  0 <= j < Z.of_nat (length lpe) -> 0 <= lpe !!! Z.to_nat j < 256.
Proof using All.
  intros Hj.
  apply (Forall_lookup_1 (fun n => 0 <= n < 256) lpe (Z.to_nat j) _ Hcnt).
  apply list_lookup_lookup_total_lt. lia.
Qed.

Lemma block_index_range j :
  0 <= j < Z.of_nat (length lpe) ->
  0 <= em !!! Z.to_nat j < Z.of_nat (length lpe).
Proof using All.
  intros Hj.
  apply (Forall_lookup_1 (fun k => 0 <= k < Z.of_nat (length lpe)) em
           (Z.to_nat j) _ Hblk).
  apply list_lookup_lookup_total_lt. lia.
Qed.

Lemma spec_base_range j :
  0 <= j < Z.of_nat (length lpe) -> 0 <= spec_base lpe em j <= 255 * 255.
Proof using All.
  intros Hj. unfold spec_base.
  pose proof (sumZ_take_le lpe (Z.to_nat (em !!! Z.to_nat j)) Hcnt).
  pose proof (sumZ_bounds lpe Hcnt). lia.
Qed.

Lemma block_base_spec j :
  0 <= j < Z.of_nat (length lpe) ->
  block_base (Some lpe) (em !!! Z.to_nat j) = Some (spec_base lpe em j).
Proof using All.
  intros Hj. pose proof (block_index_range j Hj).
  apply block_base_ok; [assumption|assumption|lia].
Qed.

Lemma length_spec_layout (k : nat) :
  (k <= length lpe)%nat ->
  Z.of_nat (length (spec_layout lpe em fm k)) = sumZ (take k lpe).
Proof using All.
  induction k as [|k IH]; intros Hk.
  - reflexivity.
  - cbn [spec_layout]. rewrite length_app, Nat2Z.inj_add, IH by lia.
    unfold spec_block. rewrite length_block_cells, Nat2Z.id.
    pose proof (led_count_range (Z.of_nat k) ltac:(lia)) as Hr.
    rewrite Nat2Z.id in Hr.
    rewrite (sumZ_take_S lpe k (lpe !!! k)).
    + lia.
    + apply list_lookup_lookup_total_lt. lia.
Qed.

Lemma pixel_loop_ok (pm : list PixelMapping) :
  Z.of_nat (length pm) = sumZ lpe ->
  for_range 0 (Z.of_nat (length lpe)) (fun logical s =>
      led_cnt ← deref (Some lpe) logical;
      phys ← deref (Some em) logical;
      rev ← deref (Some fm) logical;
      base ← block_base (Some lpe) phys;
      for_range 0 led_cnt (write_pixel logical led_cnt base rev) s)
    (pm, 0)
  = Some (spec_layout lpe em fm (length lpe), sumZ lpe).
Proof using All.
  intros Hpm.
  pose proof (sumZ_bounds lpe Hcnt) as Hsum.
  loop_inv (fun (k : Z) (s : list PixelMapping * Z) =>
    snd s = Z.of_nat (length (spec_layout lpe em fm (Z.to_nat k))) /\
    fst s = spec_layout lpe em fm (Z.to_nat k)
            ++ drop (length (spec_layout lpe em fm (Z.to_nat k))) pm).
  - lia.
  - cbn. split; reflexivity.
  - intros k [pm' px] Hk (Hpx & Hpm'). cbn [fst snd] in *.
    set (L := spec_layout lpe em fm (Z.to_nat k)) in *.
    pose proof (length_spec_layout (Z.to_nat k) ltac:(lia)) as HL. fold L in HL.
    pose proof (sumZ_take_le lpe (Datatypes.S (Z.to_nat k)) Hcnt) as Hle1.
    rewrite (sumZ_take_S lpe (Z.to_nat k) (lpe !!! Z.to_nat k)) in Hle1
      by (apply list_lookup_lookup_total_lt; lia).
    pose proof (led_count_range k ltac:(lia)) as Hc.
    pose proof (spec_base_range k ltac:(lia)) as Hbr.
    eexists. split.
    + cbn. rewrite (load_total lpe k) by lia. cbn.
      rewrite (load_total em k) by lia. cbn.
      rewrite (load_total fm k) by lia. cbn.
      rewrite block_base_spec by lia. cbn.
      apply write_pixels_ok; try lia.
      rewrite Hpm', length_app, length_drop. lia.
    + cbn [fst snd].
      replace (Z.to_nat (k + 1)) with (Datatypes.S (Z.to_nat k)) by lia.
      cbn [spec_layout]. fold L. rewrite Z2Nat.id by lia.
      rewrite length_app. unfold spec_block at 1 3. rewrite length_block_cells.
      split; [lia|].
      rewrite Hpm', Hpx, Nat2Z.id, take_app_length.
      replace (Z.to_nat (Z.of_nat (length L) + lpe !!! Z.to_nat k))
        with (length L + Z.to_nat (lpe !!! Z.to_nat k))%nat by lia.
      rewrite drop_app_add, drop_drop, <- app_assoc. reflexivity.
  - destruct r as [pm' px]. cbn [fst snd] in Hinv. destruct Hinv as (-> & ->).
    rewrite Nat2Z.id.
    pose proof (length_spec_layout (length lpe) ltac:(lia)) as HL.
    rewrite firstn_all in HL.
    rewrite drop_ge by lia. rewrite app_nil_r, HL. reflexivity.
Qed.

Lemma edge_info_loop_ok (ei : list EdgeLedInfo) :
  length ei = length lpe ->
  exists ei',
    for_range 0 (Z.of_nat (length lpe)) (fun e ei =>
        phys_strip ← deref (Some em) e;
        base ← block_base (Some lpe) phys_strip;
        cnt ← deref (Some lpe) e;
        rev ← deref (Some fm) e;
        arr ← ei;
        arr' ← store arr e
                 {| start := if rev : bool then u16 (base + cnt - 1) else u16 base;
                    count := cnt; step := if rev then -1 else 1 |};
        Some (Some arr'))
      (Some ei)
    = Some (Some ei') /\
    length ei' = length lpe /\
    forall e, 0 <= e < Z.of_nat (length lpe) ->
      load ei' e = Some (spec_info lpe em fm e).
Proof using All.
  intros Hei.
  loop_inv (fun (k : Z) (s : option (list EdgeLedInfo)) =>
    exists arr, s = Some arr /\ length arr = length lpe /\
      forall e, 0 <= e < k -> load arr e = Some (spec_info lpe em fm e)).
  - lia.
  - exists ei. split; [reflexivity|]. split; [assumption|]. intros e He. lia.
  - intros k s Hk (arr & -> & Hlen & Hprev).
    exists (Some (<[Z.to_nat k := spec_info lpe em fm k]> arr)). split.
    + cbn. rewrite (load_total em k) by lia. cbn.
      rewrite block_base_spec by lia. cbn.
      rewrite (load_total lpe k) by lia. cbn.
      rewrite (load_total fm k) by lia. cbn.
      unfold spec_info.
      destruct (fm !!! Z.to_nat k); rewrite store_ok by lia; reflexivity.
    + eexists. split; [reflexivity|]. split; [now rewrite length_insert|].
      intros e He. destruct (Z.eq_dec e k) as [->|Hne].
      * apply load_insert_eq. lia.
      * rewrite load_insert_ne by lia. apply Hprev. lia.
  - destruct Hinv as (arr & -> & Hlen & Hall). exists arr. auto.
Qed.

(** The pixels that carry edge [e] are exactly its block, in order. *)
Lemma pixels_of_edge_cells e j cnt base rev (l : list Z) :
  pixels_of_edge e (block_cell j cnt base rev <$> l)
  = if decide (j = e) then block_cell j cnt base rev <$> l else [].
Proof using All.
  unfold pixels_of_edge. induction l as [|i l IH].
  - destruct (decide (j = e)); reflexivity.
  - cbn [fmap list_fmap]. destruct (decide (j = e)) as [Heq|Hne].
    + rewrite filter_cons_True by exact Heq. f_equal. exact IH.
    + rewrite filter_cons_False by exact Hne. exact IH.
Qed.

Lemma pixels_of_edge_layout e (k : nat) :
  0 <= e ->
  pixels_of_edge e (spec_layout lpe em fm k)
  = if decide (e < Z.of_nat k) then spec_block lpe em fm e else [].
Proof using All.
  intros He. induction k as [|k IH].
  - destruct (decide (e < Z.of_nat 0)); [lia|reflexivity].
  - cbn [spec_layout]. unfold pixels_of_edge in *.
    rewrite list.filter_app, IH.
    pose proof (pixels_of_edge_cells e (Z.of_nat k)
      (lpe !!! Z.to_nat (Z.of_nat k)) (spec_base lpe em (Z.of_nat k))
      (fm !!! Z.to_nat (Z.of_nat k))
      (seqZ 0 (lpe !!! Z.to_nat (Z.of_nat k)))) as Hb.
    unfold pixels_of_edge in Hb. unfold spec_block at 2, block_cells.
    rewrite Hb.
    destruct (decide (e < Z.of_nat k)), (decide (Z.of_nat k = e)),
             (decide (e < Z.of_nat (Datatypes.S k))); try lia.
    + now rewrite app_nil_r.
    + subst e. reflexivity.
    + reflexivity.
Qed.

End Layout.

Lemma list_eq_loads {A} (l : list A) (f : Z -> A) (n : Z) :
  Z.of_nat (length l) = n ->
  (forall e, 0 <= e < n -> load l e = Some (f e)) ->
  l = f <$> seqZ 0 n.
Proof.
  intros Hlen Hall. apply list_eq. intros i.
  rewrite list_lookup_fmap.
  destruct (decide (Z.of_nat i < n)) as [Hi|Hi].
  - rewrite lookup_seqZ_lt by lia. cbn.
    specialize (Hall (Z.of_nat i) ltac:(lia)). unfold load in Hall.
    destruct (0 <=? Z.of_nat i) eqn:E0; [|discriminate].
    now rewrite Nat2Z.id in Hall.
  - rewrite lookup_seqZ_ge by lia. cbn. apply lookup_ge_None. lia.
Qed.

(** [update_mappings] succeeds on every initialised state, and what it
    leaves is a function of [leds_per_edge], [edge_map] and [flip_map]. *)
Lemma update_mappings_ok st lpe em fm pm ei :
  well_formed st lpe em fm pm ei ->
  update_mappings st = Some (spec_state lpe em fm).
Proof.
  intros (-> & Hsmall & Hem & Hfm & Hei & Hpm & Hcnt & Hblk).
  unfold update_mappings, mapping_build_pixel_map. cbn [pixel_map leds_per_edge
    edge_map flip_map edge_cnt].
  rewrite (pixel_loop_ok lpe em fm Hsmall Hem Hfm Hcnt Hblk pm Hpm).
  cbn [mbind option_bind fst].
  unfold build_edge_index_map. cbn [pixel_map leds_per_edge edge_map flip_map
    edge_cnt edge_info set_pixel_map].
  destruct (edge_info_loop_ok lpe em fm Hsmall Hem Hfm Hcnt Hblk ei Hei)
    as (ei' & Hrun & Hlen & Hall).
  rewrite Hrun. cbn. unfold spec_state, set_edge_info. cbn.
  rewrite (list_eq_loads ei' (spec_info lpe em fm) (Z.of_nat (length lpe)));
    [reflexivity|lia|assumption].
Qed.

Lemma spec_state_well_formed lpe em fm pm ei st :
  well_formed st lpe em fm pm ei ->
  well_formed (spec_state lpe em fm) lpe em fm
    (spec_layout lpe em fm (length lpe))
    (spec_info lpe em fm <$> seqZ 0 (Z.of_nat (length lpe))).
Proof.
  intros (-> & Hsmall & Hem & Hfm & Hei & Hpm & Hcnt & Hblk).
  unfold well_formed. split; [reflexivity|].
  repeat split; try assumption.
  - rewrite length_fmap, length_seqZ. lia.
  - pose proof (length_spec_layout lpe em fm Hsmall Hem Hfm Hcnt Hblk (length lpe) ltac:(lia)) as HL.
    now rewrite firstn_all in HL.
Qed.

(** C7: after [update_mappings], for every logical edge [e] and every
    [i] below [edge_info[e].count], the slot
    [edge_info[e].start + i * edge_info[e].step] is the [phys] field of
    the [i]-th entry of [pixel_map] whose [edge] field is [e]. *)
Theorem edge_info_agrees_with_pixel_map st :
  initialised st = true ->
  exists st' pm ei,
    update_mappings st = Some st' /\
    st'.(pixel_map) = Some pm /\ st'.(edge_info) = Some ei /\
    forall e, 0 <= e < st.(edge_cnt) ->
      exists inf,
        load ei e = Some inf /\
        forall i, 0 <= i < inf.(count) ->
          pixels_of_edge e pm !! Z.to_nat i
          = Some {| edge := e; phys := inf.(start) + i * inf.(step) |}.
Proof.
  intros Hinit. destruct (initialised_spec st Hinit) as (lpe & em & fm & pm & ei & Hwf).
  pose proof (update_mappings_ok _ _ _ _ _ _ Hwf) as Hrun.
  destruct Hwf as (-> & Hsmall & Hem & Hfm & Hei & Hpm & Hcnt & Hblk).
  eexists _, _, _. split; [exact Hrun|]. split; [reflexivity|]. split; [reflexivity|].
  cbn [edge_cnt]. intros e He.
  exists (spec_info lpe em fm e). split.
  { unfold load. destruct (Z.leb_spec 0 e); [|lia].
    rewrite list_lookup_fmap, lookup_seqZ_lt by lia. cbn. f_equal. f_equal. lia. }
  intros i Hi.
  rewrite (pixels_of_edge_layout lpe em fm Hsmall Hem Hfm Hcnt Hblk e (length lpe)) by lia.
  destruct (decide (e < Z.of_nat (length lpe))); [|lia].
  pose proof (led_count_range lpe em fm Hsmall Hem Hfm Hcnt Hblk e ltac:(lia)) as Hc.
  pose proof (spec_base_range lpe em fm Hsmall Hem Hfm Hcnt Hblk e ltac:(lia)) as Hb.
  unfold spec_block, block_cells. rewrite list_lookup_fmap.
  assert (Hi' : 0 <= i < lpe !!! Z.to_nat e).
  { unfold spec_info in Hi. destruct (fm !!! Z.to_nat e); exact Hi. }
  rewrite lookup_seqZ_lt by lia. cbn. unfold block_cell. f_equal. f_equal.
  rewrite Z2Nat.id by lia.
  unfold spec_info, u16. destruct (fm !!! Z.to_nat e); cbn [start step];
    rewrite Z.mod_small by lia; lia.
Qed.

Lemma edge_info_agrees_with_pixel_map_witness :
  exists st' pm ei,
    update_mappings flipped_strip = Some st' /\
    st'.(pixel_map) = Some pm /\ st'.(edge_info) = Some ei /\
    forall e, 0 <= e < flipped_strip.(edge_cnt) ->
      exists inf,
        load ei e = Some inf /\
        forall i, 0 <= i < inf.(count) ->
          pixels_of_edge e pm !! Z.to_nat i
          = Some {| edge := e; phys := inf.(start) + i * inf.(step) |}.
Proof. apply (edge_info_agrees_with_pixel_map flipped_strip). reflexivity. Defined.

(** *** Flipping an edge twice *)

Lemma toggle_flip_ok st lpe em fm pm ei e :
  well_formed st lpe em fm pm ei ->
  0 <= e < st.(edge_cnt) ->
  exists st',
    toggle_flip e st = Some st' /\
    well_formed st' lpe em (<[Z.to_nat e := negb (fm !!! Z.to_nat e)]> fm) pm ei.
Proof.
  intros (-> & Hsmall & Hem & Hfm & Hei & Hpm & Hcnt & Hblk) He.
  cbn [edge_cnt] in He. unfold toggle_flip. cbn [flip_map]. cbn.
  rewrite (load_total fm e) by lia. cbn.
  rewrite store_ok by lia. cbn.
  eexists. split; [reflexivity|].
  unfold well_formed, set_flip_map. cbn. rewrite length_insert.
  repeat split; assumption.
Qed.

Lemma toggle_twice (fm : list bool) (n : nat) :
  (n < length fm)%nat ->
  <[n := negb (<[n := negb (fm !!! n)]> fm !!! n)]> (<[n := negb (fm !!! n)]> fm)
  = fm.
Proof.
  intros Hn.
  rewrite list_insert_insert_eq.
  rewrite (list_lookup_total_correct _ _ (negb (fm !!! n)))
    by (apply list_lookup_insert_eq; exact Hn).
  rewrite negb_involutive. apply list_insert_id.
  apply list_lookup_lookup_total_lt. exact Hn.
Qed.

(** C9: on an up-to-date mapping state, toggling [flip_map[e]],
    rebuilding, toggling [flip_map[e]] again and rebuilding again gives
    back the state from before the first toggle: [pixel_map] and
    [edge_info] (so in particular the entries of edge [e]) and the tables
    themselves are what they were. *)
Theorem double_flip_is_identity st st0 e :
  initialised st = true ->
  update_mappings st = Some st0 ->
  0 <= e < st.(edge_cnt) ->
  (st1 ← toggle_flip e st0; st2 ← update_mappings st1;
   st3 ← toggle_flip e st2; update_mappings st3) = Some st0.
Proof.
  intros Hinit Hrun He.
  destruct (initialised_spec st Hinit) as (lpe & em & fm & pm & ei & Hwf).
  rewrite (update_mappings_ok _ _ _ _ _ _ Hwf) in Hrun. injection Hrun as <-.
  pose proof (spec_state_well_formed _ _ _ _ _ _ Hwf) as Hwf0.
  assert (He' : 0 <= e < Z.of_nat (length lpe)).
  { destruct Hwf as (-> & _). exact He. }
  assert (Hfm : length fm = length lpe) by apply Hwf.
  destruct (toggle_flip_ok _ _ _ _ _ _ e Hwf0 He') as (st1 & Ht1 & Hwf1).
  rewrite Ht1. cbn [mbind option_bind].
  rewrite (update_mappings_ok _ _ _ _ _ _ Hwf1). cbn [mbind option_bind].
  pose proof (spec_state_well_formed _ _ _ _ _ _ Hwf1) as Hwf2.
  destruct (toggle_flip_ok _ _ _ _ _ _ e Hwf2 He') as (st3 & Ht3 & Hwf3).
  rewrite Ht3. cbn [mbind option_bind].
  rewrite (update_mappings_ok _ _ _ _ _ _ Hwf3).
  rewrite toggle_twice by lia. reflexivity.
Qed.

Lemma double_flip_is_identity_witness :
  exists st0,
    update_mappings flipped_strip = Some st0 /\
    (st1 ← toggle_flip 1 st0; st2 ← update_mappings st1;
     st3 ← toggle_flip 1 st2; update_mappings st3) = Some st0.
Proof.
  eexists. split; [vm_compute; reflexivity|].
  apply (double_flip_is_identity flipped_strip _ 1).
  - reflexivity.
  - vm_compute. reflexivity.
  - cbn. lia.
Defined.

(** After a rebuild each edge owns exactly [leds_per_edge[edge]] entries
    of [pixel_map], whatever the tables. *)
Lemma edge_owns_its_led_count st lpe em fm pm ei e :
  well_formed st lpe em fm pm ei ->
  0 <= e < st.(edge_cnt) ->
  exists st' pm',
    update_mappings st = Some st' /\ st'.(pixel_map) = Some pm' /\
    Z.of_nat (length (pixels_of_edge e pm')) = lpe !!! Z.to_nat e.
Proof.
  intros Hwf He. pose proof (update_mappings_ok _ _ _ _ _ _ Hwf) as Hrun.
  destruct Hwf as (-> & Hsmall & Hem & Hfm & Hei & Hpm & Hcnt & Hblk).
  cbn [edge_cnt] in He.
  eexists _, _. split; [exact Hrun|]. split; [reflexivity|].
  rewrite (pixels_of_edge_layout lpe em fm Hsmall Hem Hfm Hcnt Hblk e (length lpe))
    by lia.
  destruct (decide (e < Z.of_nat (length lpe))); [|lia].
  unfold spec_block. rewrite length_block_cells.
  pose proof (led_count_range lpe em fm Hsmall Hem Hfm Hcnt Hblk e ltac:(lia)).
  lia.
Qed.

Lemma sumZ_take_uniform (lpe : list Z) (c : Z) (n : nat) :
  Forall (fun x => x = c) lpe -> (n <= length lpe)%nat ->
  sumZ (take n lpe) = c * Z.of_nat n.
Proof.
  intros Hu. revert n. induction Hu as [|x l -> Hl IH]; intros n Hn.
  - cbn in Hn. replace n with 0%nat by lia. cbn. lia.
  - destruct n as [|n]; [cbn; lia|].
    cbn [take]. change (sumZ (c :: take n l)) with (c + sumZ (take n l)).
    rewrite IH by (cbn in Hn; lia). lia.
Qed.

Lemma block_in_layout lpe em fm (k : nat) j x :
  0 <= j < Z.of_nat k -> x ∈ spec_block lpe em fm j ->
  x ∈ spec_layout lpe em fm k.
Proof.
  intros Hj Hx. induction k as [|k IH]; [lia|].
  cbn [spec_layout]. apply elem_of_app.
  destruct (Z.eq_dec j (Z.of_nat k)) as [->|Hne]; [right; assumption|].
  left. apply IH. lia.
Qed.

(** When every edge has the same number of LEDs (the regular solids),
    the blocks tile the strip run for every permutation [edge_map] and
    every [flip_map]: each physical slot occurs exactly once. *)
Lemma pixel_map_bijective_uniform st lpe em fm pm ei c :
  well_formed st lpe em fm pm ei ->
  Forall (fun x => x = c) lpe ->
  is_permutation em = true ->
  exists st' pm',
    update_mappings st = Some st' /\ st'.(pixel_map) = Some pm' /\
    map phys pm' ≡ₚ seqZ 0 st.(pixels_total).
Proof.
  intros Hwf Hu Hperm. pose proof (update_mappings_ok _ _ _ _ _ _ Hwf) as Hrun.
  destruct Hwf as (-> & Hsmall & Hem & Hfm & Hei & Hpm & Hcnt & Hblk).
  eexists _, _. split; [exact Hrun|]. split; [reflexivity|].
  cbn [pixels_total]. symmetry.
  pose proof (length_spec_layout lpe em fm Hsmall Hem Hfm Hcnt Hblk
                (length lpe) ltac:(lia)) as HL.
  rewrite firstn_all in HL.
  pose proof (sumZ_take_uniform lpe c (length lpe) Hu ltac:(lia)) as Hsum.
  rewrite firstn_all in Hsum.
  apply submseteq_length_Permutation;
    [|rewrite length_map, length_seqZ; lia].
  apply NoDup_submseteq; [apply NoDup_seqZ|].
  intros x Hx. apply elem_of_seqZ in Hx.
  assert (Hc : 0 < c).
  { destruct (Z.le_gt_cases c 0); [|assumption]. nia. }
  (* the block and the offset of slot [x] *)
  set (b := x / c). set (off := x mod c).
  assert (Hoff : 0 <= off < c) by (apply Z.mod_pos_bound; lia).
  assert (Hxb : x = c * b + off) by (apply Z.div_mod; lia).
  assert (Hb : 0 <= b < Z.of_nat (length lpe)).
  { split; [apply Z.div_pos; lia|]. apply Z.div_lt_upper_bound; lia. }
  (* the logical edge that sits in block [b] *)
  unfold is_permutation in Hperm. rewrite forallb_forall in Hperm.
  assert (Hbin : b ∈ em).
  { eapply bool_decide_eq_true_1, Hperm, list_elem_of_In, elem_of_seqZ. lia. }
  apply list_elem_of_lookup in Hbin as (j & Hj).
  pose proof (lookup_lt_Some _ _ _ Hj) as Hjlt.
  assert (Hcj : lpe !!! j = c).
  { apply (Forall_lookup_1 _ _ j _ Hu), list_lookup_lookup_total_lt. lia. }
  assert (Hbase : spec_base lpe em (Z.of_nat j) = c * b).
  { unfold spec_base. rewrite Nat2Z.id, (list_lookup_total_correct em j b Hj).
    rewrite (sumZ_take_uniform lpe c) by (assumption || lia). lia. }
  set (i := if fm !!! j : bool then c - 1 - off else off).
  assert (Hi : 0 <= i < c) by (subst i; destruct (fm !!! j); lia).
  change (map phys ?l) with (phys <$> l).
  apply list_elem_of_fmap.
  exists (block_cell (Z.of_nat j) c (c * b) (fm !!! j) i). split.
  - unfold block_cell, i. cbn. destruct (fm !!! j); lia.
  - apply (block_in_layout lpe em fm (length lpe) (Z.of_nat j)); [lia|].
    unfold spec_block, block_cells. rewrite Nat2Z.id, Hcj, Hbase.
    apply list_elem_of_fmap_2, elem_of_seqZ. lia.
Qed.

(** C3, at its failing input: three edges of 12, 24 and 24 LEDs with the
    first two strips swapped in [edge_map] (a permutation).  The rebuilt
    [pixel_map] has 60 entries and each edge owns as many entries as it
    has LEDs, but physical slot 12 occurs twice and slot 24 not at all. *)
Theorem pixel_map_not_bijective_when_strips_differ :
  exists st pm,
    initialised swapped_strips = true /\
    is_permutation [1; 0; 2] = true /\
    update_mappings swapped_strips = Some st /\
    st.(pixel_map) = Some pm /\
    length pm = 60%nat /\
    length (pixels_of_edge 0 pm) = 12%nat /\
    length (pixels_of_edge 1 pm) = 24%nat /\
    length (pixels_of_edge 2 pm) = 24%nat /\
    occurrences 12 pm = 2%nat /\
    occurrences 24 pm = 0%nat.
Proof.
  eexists _, _.
  split; [reflexivity|]. split; [reflexivity|].
  split; [vm_compute; reflexivity|]. split; [reflexivity|].
  repeat split; vm_compute; reflexivity.
Qed.

End MappingFacts.


(** ** polyhedron.c *)

Module TopologyFacts.
Import Topology.

Lemma shape_spec p :
  shape p = true ->
  length p.(v) = 200%nat /\ length p.(fv) = 120%nat /\ length p.(f) = 120%nat /\
  Forall (fun row => length row = 10%nat) p.(f) /\
  length p.(e) = 300%nat /\ length p.(e2f) = 300%nat.
Proof.
  unfold shape. intros H.
  repeat (apply andb_prop in H as [H ?]).
  repeat match goal with
  | H : (_ =? _)%nat = true |- _ => apply Nat.eqb_eq in H
  end.
  repeat split; try assumption.
  apply List.Forall_forall. intros row Hrow.
  match goal with H : forallb _ _ = true |- _ =>
    rewrite forallb_forall in H; apply H in Hrow end.
  now apply Nat.eqb_eq in Hrow.
Qed.

(** *** poly_find_edge *)

Lemma edge_test ed va vb :
  (ed.(a) =? va) && (ed.(b) =? vb) = true <-> ed = {| a := va; b := vb |}.
Proof.
  destruct ed as [x y]. cbn. split.
  - intros [->%Z.eqb_eq ->%Z.eqb_eq]%andb_prop. reflexivity.
  - intros [= -> ->]. now rewrite !Z.eqb_refl.
Qed.

Lemma find_edge_loop_spec p va vb :
  Z.of_nat (length p.(e)) = POLY_MAX_E ->
  0 <= p.(E) < 256 ->
  exists r,
    find_edge_loop p va vb = Some r /\
    ((r = 255 /\
      forall k, 0 <= k < p.(E) -> load p.(e) k <> Some {| a := va; b := vb |}) \/
     (0 <= r < p.(E) /\ load p.(e) r = Some {| a := va; b := vb |} /\
      forall k, 0 <= k < r -> load p.(e) k <> Some {| a := va; b := vb |})).
Proof.
  intros Hlen HE. unfold find_edge_loop, POLY_MAX_E in *.
  loop_brk_inv
    (fun (i : Z) (s : Z) =>
       s = 255 /\
       forall k, 0 <= k < i -> load p.(e) k <> Some {| a := va; b := vb |})
    (fun (s : Z) =>
       0 <= s < p.(E) /\ load p.(e) s = Some {| a := va; b := vb |} /\
       forall k, 0 <= k < s -> load p.(e) k <> Some {| a := va; b := vb |}).
  - lia.
  - split; [reflexivity|]. intros k Hk. lia.
  - intros i s Hi (-> & Hprev).
    destruct (load_ok p.(e) i) as [ed Hed]; [lia|]. rewrite Hed. cbn.
    destruct ((a ed =? va) && (b ed =? vb)) eqn:Ht.
    + right. exists i. split; [reflexivity|].
      apply edge_test in Ht. subst ed. auto.
    + left. exists 255. split; [reflexivity|]. split; [reflexivity|].
      intros k Hk. destruct (Z.eq_dec k i) as [->|Hne].
      * rewrite Hed. intros [= ->]. apply not_true_iff_false in Ht.
        apply Ht, edge_test. reflexivity.
      * apply Hprev. lia.
  - exists r. split; [reflexivity|]. exact Hinv.
Qed.

Lemma poly_find_edge_canonical p v0 v1 :
  poly_find_edge p v0 v1 = find_edge_loop p (Z.min v0 v1) (Z.max v0 v1).
Proof.
  unfold poly_find_edge. destruct (Z.gtb_spec v0 v1).
  - now rewrite Z.min_r, Z.max_l by lia.
  - now rewrite Z.min_l, Z.max_r by lia.
Qed.

(** *** _build_edges *)

Lemma elem_of_take_load {A} (l : list A) (n : Z) (x : A) :
  0 <= n ->
  x ∈ take (Z.to_nat n) l <-> exists k, 0 <= k < n /\ load l k = Some x.
Proof.
  intros Hn. rewrite list_elem_of_lookup. split.
  - intros (i & Hi). apply lookup_take_Some in Hi as [Hi Hlt].
    exists (Z.of_nat i). split; [lia|]. unfold load.
    destruct (Z.leb_spec 0 (Z.of_nat i)); [|lia]. now rewrite Nat2Z.id.
  - intros (k & Hk & Hl). exists (Z.to_nat k). apply lookup_take_Some.
    unfold load in Hl. destruct (Z.leb_spec 0 k); [|lia]. split; [assumption|lia].
Qed.

Lemma search_edge_spec p va vb :
  tables_ok p ->
  exists ei,
    search_edge p va vb = Some ei /\
    ((ei = p.(E) /\ {| a := va; b := vb |} ∉ take (Z.to_nat p.(E)) p.(e)) \/
     (0 <= ei < p.(E) /\ load p.(e) ei = Some {| a := va; b := vb |})).
Proof.
  intros (Hlen & _ & HE). unfold search_edge.
  loop_brk_inv
    (fun (i : Z) (s : Z) =>
       s = i /\
       forall k, 0 <= k < i -> load p.(e) k <> Some {| a := va; b := vb |})
    (fun (s : Z) =>
       0 <= s < p.(E) /\ load p.(e) s = Some {| a := va; b := vb |}).
  - lia.
  - split; [reflexivity|]. intros k Hk. lia.
  - intros i s Hi (-> & Hprev).
    destruct (load_ok p.(e) i) as [ed Hed]; [lia|]. rewrite Hed. cbn.
    destruct ((a ed =? va) && (b ed =? vb)) eqn:Ht.
    + right. exists i. split; [reflexivity|].
      apply edge_test in Ht. subst ed. auto.
    + left. exists (i + 1). split; [reflexivity|]. split; [reflexivity|].
      intros k Hk. destruct (Z.eq_dec k i) as [->|Hne].
      * rewrite Hed. intros [= ->]. apply not_true_iff_false in Ht.
        apply Ht, edge_test. reflexivity.
      * apply Hprev. lia.
  - exists r. split; [reflexivity|].
    destruct Hinv as [(-> & Hno)|Hyes]; [left|right; exact Hyes].
    split; [reflexivity|]. rewrite elem_of_take_load by lia.
    intros (k & Hk & Hl). exact (Hno k Hk Hl).
Qed.

Lemma take_insert_snoc {A} (l : list A) (n : nat) (x : A) :
  (n < length l)%nat -> take (Datatypes.S n) (<[n := x]> l) = take n l ++ [x].
Proof.
  intros Hn. rewrite (take_S_r _ _ x) by (now apply list_lookup_insert_eq).
  now rewrite take_insert_ge by lia.
Qed.

(** One corner: the pair is looked up, entered if new, and the face is
    noted in [e2f]; the loop never leaves early since [E] cannot reach
    [POLY_MAX_E]. *)
Lemma build_edges_corner_ok fi n i p a0 b0 :
  tables_ok p ->
  load2 p.(f) fi i = Some a0 ->
  load2 p.(f) fi ((i + 1) mod n) = Some b0 ->
  exists p',
    build_edges_corner fi n i p = Some (Continue p') /\
    same_faces p p' /\ p'.(v) = p.(v) /\ tables_ok p' /\
    take (Z.to_nat p'.(E)) p'.(e)
      = add_edge (take (Z.to_nat p.(E)) p.(e)) (canonical a0 b0).
Proof.
  intros Hok Ha Hb. pose proof Hok as (Hlen & Hlen2 & HE).
  unfold build_edges_corner. rewrite Ha, Hb. cbn [mbind option_bind].
  assert (Hcan : {| a := if a0 >? b0 then b0 else a0;
                    b := if a0 >? b0 then a0 else b0 |} = canonical a0 b0).
  { unfold canonical. destruct (Z.gtb_spec a0 b0).
    - now rewrite Z.min_r, Z.max_l by lia.
    - now rewrite Z.min_l, Z.max_r by lia. }
  destruct (search_edge_spec p (if a0 >? b0 then b0 else a0)
              (if a0 >? b0 then a0 else b0) Hok) as (ei & Hs & Hcase).
  rewrite Hs. cbn [mbind option_bind]. rewrite Hcan in *.
  assert (Hlt : Z.of_nat (length (take (Z.to_nat p.(E)) p.(e))) = p.(E)).
  { rewrite length_take. lia. }
  destruct Hcase as [(-> & Hnew)|(Hei & Hfound)].
  - rewrite Z.eqb_refl.
    assert (Hge : (E p >=? POLY_MAX_E) = false).
    { unfold POLY_MAX_E. rewrite Z.geb_leb. apply Z.leb_gt. lia. }
    rewrite Hge. cbn [andb].
    rewrite store_ok by lia. cbn [mbind option_bind set_e set_E e2f E e].
    destruct (load_ok p.(e2f) p.(E)) as [adj Hadj]; [lia|]. rewrite Hadj.
    cbn [mbind option_bind].
    set (adj' := if fst adj =? 255 then (fi, snd adj) else (fst adj, fi)).
    exists (set_e2f (<[Z.to_nat p.(E) := adj']> p.(e2f))
              (set_E (u8 (p.(E) + 1))
                 (set_e (<[Z.to_nat p.(E) := canonical a0 b0]> p.(e)) p))).
    split.
    { subst adj'. destruct (fst adj =? 255); rewrite store_ok by lia; reflexivity. }
    assert (Hu8 : 0 <= u8 (p.(E) + 1) < 256).
    { unfold u8. apply Z.mod_pos_bound. lia. }
    split; [repeat split|]. split; [reflexivity|].
    split.
    { unfold tables_ok. cbn. rewrite !length_insert. auto. }
    cbn [E e set_e2f set_E set_e].
    unfold add_edge. destruct (decide _) as [Hin|_]; [contradiction|].
    rewrite Hlt. destruct (decide (E p + 1 < 256)) as [Hs1|Hs1].
    + unfold u8. rewrite Z.mod_small by lia.
      replace (Z.to_nat (E p + 1)) with (Datatypes.S (Z.to_nat (E p))) by lia.
      apply take_insert_snoc. lia.
    + replace (E p + 1) with 256 by lia. reflexivity.
  - assert (Hne : (ei =? E p) = false) by (apply Z.eqb_neq; lia).
    rewrite Hne. cbn [andb mbind option_bind].
    destruct (load_ok p.(e2f) ei) as [adj Hadj]; [lia|]. rewrite Hadj.
    cbn [mbind option_bind].
    set (adj' := if fst adj =? 255 then (fi, snd adj) else (fst adj, fi)).
    exists (set_e2f (<[Z.to_nat ei := adj']> p.(e2f)) p).
    split.
    { subst adj'. destruct (fst adj =? 255); rewrite store_ok by lia; reflexivity. }
    split; [repeat split|]. split; [reflexivity|].
    split.
    { unfold tables_ok. cbn. rewrite !length_insert. auto. }
    cbn [E e set_e2f].
    unfold add_edge. destruct (decide _) as [_|Hnin]; [reflexivity|].
    exfalso. apply Hnin. apply elem_of_take_load; [lia|]. eauto.
Qed.

Lemma load2_corner p fi i :
  length p.(f) = 120%nat ->
  Forall (fun row => length row = 10%nat) p.(f) ->
  0 <= fi < 120 -> 0 <= i < 10 ->
  load2 p.(f) fi i = Some (corner p fi i).
Proof.
  intros Hlen Hrows Hfi Hi. unfold load2, corner.
  rewrite (load_total p.(f) fi) by lia. cbn [mbind option_bind].
  apply load_total.
  assert (Hrow : length (p.(f) !!! Z.to_nat fi) = 10%nat).
  { apply (Forall_lookup_1 _ _ (Z.to_nat fi) _ Hrows).
    apply list_lookup_lookup_total_lt. lia. }
  lia.
Qed.

Lemma same_faces_corner p q fi i : same_faces p q -> corner q fi i = corner p fi i.
Proof. intros (_ & _ & _ & Hf). unfold corner. now rewrite Hf. Qed.

Lemma same_faces_trans p q r : same_faces p q -> same_faces q r -> same_faces p r.
Proof. unfold same_faces. intros (?&?&?&?) (?&?&?&?). repeat split; congruence. Qed.

Lemma same_faces_fit p q : same_faces p q -> faces_fit p -> faces_fit q.
Proof.
  unfold same_faces, faces_fit. intros (HV & HF & Hfv & Hf).
  rewrite HF, Hfv, Hf. auto.
Qed.

(** The corners of one face. *)
Lemma build_edges_face_ok p fi :
  faces_fit p -> tables_ok p -> 0 <= fi < p.(F) ->
  exists p',
    for_range_brk 0 (p.(fv) !!! Z.to_nat fi)
      (build_edges_corner fi (p.(fv) !!! Z.to_nat fi)) p = Some p' /\
    same_faces p p' /\ p'.(v) = p.(v) /\ tables_ok p' /\
    take (Z.to_nat p'.(E)) p'.(e)
      = foldl add_edge (take (Z.to_nat p.(E)) p.(e)) (face_pairs p fi).
Proof.
  intros Hfit Hok Hfi. pose proof Hfit as (Hlfv & Hlf & Hrows & HF & Hfv).
  specialize (Hfv fi Hfi). set (n := p.(fv) !!! Z.to_nat fi) in *.
  loop_brk_inv
    (fun (i : Z) (q : Polyhedron) =>
       same_faces p q /\ q.(v) = p.(v) /\ tables_ok q /\
       take (Z.to_nat q.(E)) q.(e)
         = foldl add_edge (take (Z.to_nat p.(E)) p.(e))
             ((fun i => canonical (corner p fi i) (corner p fi ((i + 1) mod n)))
                <$> seqZ 0 i))
    (fun _ : Polyhedron => False).
  - lia.
  - split; [repeat split|]. split; [reflexivity|]. split; [assumption|reflexivity].
  - intros i q Hi (Hsame & Hv & Hokq & Htbl). left.
    pose proof (same_faces_fit _ _ Hsame Hfit) as (_ & Hlfq & Hrowsq & _ & _).
    assert (Hmod : 0 <= (i + 1) mod n < n) by (apply Z.mod_pos_bound; lia).
    destruct (build_edges_corner_ok fi n i q (corner q fi i)
                (corner q fi ((i + 1) mod n)) Hokq)
      as (q' & Hrun' & Hsame' & Hv' & Hok' & Htbl').
    { apply load2_corner; try assumption; lia. }
    { apply load2_corner; try assumption; lia. }
    exists q'. split; [exact Hrun'|].
    split; [eapply same_faces_trans; eassumption|].
    split; [congruence|]. split; [assumption|].
    rewrite Htbl', Htbl, !(same_faces_corner p q) by assumption.
    rewrite seqZ_app, fmap_app, foldl_app by lia. reflexivity.
  - destruct Hinv as [(Hsame & Hv & Hokr & Htbl)|[]].
    exists r. split; [reflexivity|].
    split; [assumption|]. split; [assumption|]. split; [assumption|]. exact Htbl.
Qed.

(** [_build_edges] succeeds within capacity, leaves vertices and faces
    alone, and leaves in [e[0 .. E)] the table [edge_table] describes. *)
Lemma build_edges_ok p :
  faces_fit p -> length p.(e) = 300%nat ->
  exists p',
    _build_edges p = Some p' /\
    same_faces p p' /\ p'.(v) = p.(v) /\ tables_ok p' /\
    take (Z.to_nat p'.(E)) p'.(e) = edge_table p.
Proof.
  intros Hfit Hle. pose proof Hfit as (Hlfv & Hlf & Hrows & HF & Hfv).
  unfold _build_edges. cbn [F set_e2f set_E].
  set (p0 := set_e2f _ (set_E 0 p)).
  assert (Hs0 : same_faces p p0) by (repeat split).
  loop_inv
    (fun (fi : Z) (q : Polyhedron) =>
       same_faces p q /\ q.(v) = p.(v) /\ tables_ok q /\
       take (Z.to_nat q.(E)) q.(e)
         = foldl add_edge [] (concat (face_pairs p <$> seqZ 0 fi))).
  - lia.
  - split; [assumption|]. split; [reflexivity|]. split; [|reflexivity].
    unfold tables_ok. cbn. rewrite length_replicate. repeat split; lia.
  - intros fi q Hfi (Hsame & Hv & Hokq & Htbl).
    pose proof (same_faces_fit _ _ Hsame Hfit) as Hfitq.
    pose proof Hsame as (HV' & HF' & Hfv' & Hf').
    rewrite (load_total q.(fv) fi) by (rewrite Hfv'; lia).
    cbn [mbind option_bind].
    destruct (build_edges_face_ok q fi Hfitq Hokq ltac:(lia))
      as (q' & Hrun' & Hsame' & Hv'' & Hok' & Htbl').
    exists q'. split; [exact Hrun'|].
    split; [eapply same_faces_trans; eassumption|].
    split; [congruence|]. split; [assumption|].
    rewrite Htbl', Htbl. rewrite seqZ_app, fmap_app, concat_app, foldl_app by lia.
    cbn [seqZ]. replace (seqZ (0 + fi) 1) with [fi] by reflexivity.
    cbn [fmap list_fmap concat]. rewrite app_nil_r.
    f_equal. unfold face_pairs. rewrite Hfv'.
    apply list_fmap_ext. intros _ i _.
    now rewrite !(same_faces_corner p q) by assumption.
  - destruct Hinv as (Hsame & Hv & Hokr & Htbl).
    exists r. split; [reflexivity|].
    split; [assumption|]. split; [assumption|]. split; [assumption|]. exact Htbl.
Qed.

(** *** Normalisation only rewrites vertex positions *)

Lemma poly_normalize_ok p :
  length p.(v) = 200%nat -> 0 <= p.(V) <= 200 ->
  exists v', poly_normalize p = Some (set_v v' p) /\ length v' = 200%nat.
Proof.
  intros Hlen HV. unfold poly_normalize.
  loop_inv (fun (_ : Z) (_ : float) => True).
  - lia.
  - exact I.
  - intros i acc Hi _. destruct (load_ok p.(v) i) as [vi Hvi]; [lia|].
    rewrite Hvi. cbn. eauto.
  - cbn [mbind option_bind].
    loop_inv (fun (_ : Z) (vs : list vec3) => length vs = 200%nat).
    + lia.
    + assumption.
    + intros i vs Hi Hl. destruct (load_ok vs i) as [vi Hvi]; [lia|].
      rewrite Hvi. cbn [mbind option_bind]. rewrite store_ok by lia.
      eexists. split; [reflexivity|]. now rewrite length_insert.
    + cbn [mbind option_bind]. eauto.
Qed.

Lemma poly_radial_normalize_ok p :
  length p.(v) = 200%nat -> 0 <= p.(V) <= 200 ->
  exists v', poly_radial_normalize p = Some (set_v v' p) /\ length v' = 200%nat.
Proof.
  intros Hlen HV. unfold poly_radial_normalize.
  loop_inv (fun (_ : Z) (vs : list vec3) => length vs = 200%nat).
  - lia.
  - assumption.
  - intros i vs Hi Hl. destruct (load_ok vs i) as [vi Hvi]; [lia|].
    rewrite Hvi. cbn [mbind option_bind].
    destruct (f_gt (v_len vi) (f_of_Z 0)).
    + rewrite store_ok by lia. eexists. split; [reflexivity|].
      now rewrite length_insert.
    + eauto.
  - cbn [mbind option_bind]. eauto.
Qed.

Lemma edge_table_same p q : same_faces p q -> edge_table q = edge_table p.
Proof.
  intros (_ & HF & Hfv & Hf). unfold edge_table, all_pairs. rewrite HF.
  f_equal. f_equal. apply list_fmap_ext. intros _ fi _.
  unfold face_pairs, corner. now rewrite Hfv, Hf.
Qed.

(** [poly_prepare] succeeds within capacity, keeps [V], [F] and the
    faces, and rebuilds the edge table from the faces. *)
Lemma poly_prepare_ok p :
  faces_fit p -> length p.(v) = 200%nat -> length p.(e) = 300%nat ->
  0 <= p.(V) <= 200 ->
  exists p',
    poly_prepare p = Some p' /\
    same_faces p p' /\ length p'.(v) = 200%nat /\ tables_ok p' /\
    take (Z.to_nat p'.(E)) p'.(e) = edge_table p.
Proof.
  intros Hfit Hlv Hle HV. unfold poly_prepare.
  destruct (poly_normalize_ok p Hlv HV) as (v' & -> & Hlv').
  cbn [mbind option_bind].
  set (p1 := set_e2f _ (set_v v' p)).
  assert (Hs1 : same_faces p p1) by (repeat split).
  destruct (build_edges_ok p1 (same_faces_fit _ _ Hs1 Hfit) Hle)
    as (p' & Hrun & Hsame & Hv & Hok & Htbl).
  exists p'. split; [exact Hrun|].
  split; [exact (same_faces_trans _ _ _ Hs1 Hsame)|].
  split; [rewrite Hv; exact Hlv'|]. split; [assumption|].
  now rewrite Htbl, (edge_table_same p p1).
Qed.

Lemma capacity_spec p :
  capacity p = true ->
  faces_fit p /\ length p.(v) = 200%nat /\ length p.(e) = 300%nat /\
  length p.(e2f) = 300%nat /\ 0 <= p.(V) <= 200.
Proof.
  unfold capacity, POLY_MAX_V, POLY_MAX_F, POLY_MAX_FV. intros H.
  do 5 (apply andb_prop in H as [H ?]).
  destruct (shape_spec p H) as (Hv & Hfv & Hf & Hrows & He & He2f).
  repeat match goal with
  | H : (_ <=? _) = true |- _ => apply Z.leb_le in H
  end.
  split; [|repeat split; assumption || lia].
  unfold faces_fit. repeat split; try assumption; try lia.
  - match goal with H : forallb _ _ = true |- _ =>
      rewrite forallb_forall in H;
      assert (Hin : In (p.(fv) !!! Z.to_nat fi) (take (Z.to_nat p.(F)) p.(fv)));
      [|apply H in Hin; apply andb_prop in Hin as [?%Z.leb_le ?%Z.leb_le]; lia]
    end.
    apply list_elem_of_In, list_elem_of_lookup. exists (Z.to_nat fi).
    apply lookup_take_Some. split; [|lia].
    apply list_lookup_lookup_total_lt. lia.
  - match goal with H : forallb _ _ = true |- _ =>
      rewrite forallb_forall in H;
      assert (Hin : In (p.(fv) !!! Z.to_nat fi) (take (Z.to_nat p.(F)) p.(fv)));
      [|apply H in Hin; apply andb_prop in Hin as [?%Z.leb_le ?%Z.leb_le]; lia]
    end.
    apply list_elem_of_In, list_elem_of_lookup. exists (Z.to_nat fi).
    apply lookup_take_Some. split; [|lia].
    apply list_lookup_lookup_total_lt. lia.
Qed.

(** *** The edge list of a prepared polyhedron *)

Lemma add_edge_NoDup tbl pair : NoDup tbl -> NoDup (add_edge tbl pair).
Proof.
  intros Hnd. unfold add_edge.
  destruct (decide (pair ∈ tbl)) as [_|Hnin]; [assumption|].
  destruct (decide _); [|constructor].
  apply list.NoDup_app. split; [assumption|]. split.
  - intros x Hx Hx'. apply list_elem_of_singleton in Hx'. now subst x.
  - apply NoDup_singleton.
Qed.

Lemma foldl_add_edge_NoDup pairs tbl :
  NoDup tbl -> NoDup (foldl add_edge tbl pairs).
Proof.
  revert tbl. induction pairs as [|pair pairs IH]; intros tbl Hnd; cbn.
  - assumption.
  - apply IH, add_edge_NoDup, Hnd.
Qed.

Lemma edge_table_NoDup p : NoDup (edge_table p).
Proof. apply foldl_add_edge_NoDup. constructor. Qed.

Lemma prepared_spec p :
  prepared p ->
  faces_fit p /\ length p.(v) = 200%nat /\ tables_ok p /\ 0 <= p.(V) <= 200 /\
  take (Z.to_nat p.(E)) p.(e) = edge_table p.
Proof.
  intros (q & Hcap & Hrun).
  destruct (capacity_spec q Hcap) as (Hfit & Hlv & Hle & _ & HV).
  destruct (poly_prepare_ok q Hfit Hlv Hle HV)
    as (p' & Hrun' & Hsame & Hlv' & Hok & Htbl).
  rewrite Hrun in Hrun'. injection Hrun' as <-.
  split; [exact (same_faces_fit _ _ Hsame Hfit)|].
  split; [assumption|]. split; [assumption|].
  split; [destruct Hsame as (-> & _); assumption|].
  now rewrite (edge_table_same q p).
Qed.

(** C6: on a prepared polyhedron [poly_find_edge(p, a, b)] and
    [poly_find_edge(p, b, a)] return the same value; when the canonical
    pair [(min(a,b), max(a,b))] is in the edge list the value is the index
    of the one edge that holds it, and otherwise it is the sentinel
    [0xFF]. *)
Theorem poly_find_edge_symmetric p v0 v1 :
  prepared p ->
  exists r,
    poly_find_edge p v0 v1 = Some r /\
    poly_find_edge p v1 v0 = Some r /\
    (canonical v0 v1 ∈ take (Z.to_nat p.(E)) p.(e) ->
       0 <= r < p.(E) /\
       forall k, 0 <= k < p.(E) ->
         (load p.(e) k = Some (canonical v0 v1) <-> k = r)) /\
    (canonical v0 v1 ∉ take (Z.to_nat p.(E)) p.(e) -> r = 255).
Proof.
  intros Hprep.
  destruct (prepared_spec p Hprep) as (_ & _ & Hok & _ & Htbl).
  pose proof Hok as (Hle & _ & HE).
  pose proof (edge_table_NoDup p) as Hnd. rewrite <- Htbl in Hnd.
  destruct (find_edge_loop_spec p (Z.min v0 v1) (Z.max v0 v1)) as (r & Hr & Hcase).
  { unfold POLY_MAX_E. lia. }
  { assumption. }
  exists r. rewrite (poly_find_edge_canonical p v0 v1).
  rewrite (poly_find_edge_canonical p v1 v0), (Z.min_comm v1 v0), (Z.max_comm v1 v0).
  split; [assumption|]. split; [assumption|].
  fold (canonical v0 v1) in Hcase. split.
  - intros Hin. destruct Hcase as [(_ & Hno)|(Hrng & Hhit & _)].
    + exfalso. apply elem_of_take_load in Hin as (k & Hk & Hl); [|lia].
      exact (Hno k Hk Hl).
    + split; [assumption|]. intros k Hk. split.
      * intros Hl.
        assert (Hk' : take (Z.to_nat p.(E)) p.(e) !! Z.to_nat k
                      = Some (canonical v0 v1)).
        { apply lookup_take_Some. unfold load in Hl.
          destruct (0 <=? k); [|discriminate]. split; [assumption|lia]. }
        assert (Hr' : take (Z.to_nat p.(E)) p.(e) !! Z.to_nat r
                      = Some (canonical v0 v1)).
        { apply lookup_take_Some. unfold load in Hhit.
          destruct (0 <=? r); [|discriminate]. split; [assumption|lia]. }
        pose proof (NoDup_lookup _ _ _ _ Hnd Hk' Hr'). lia.
      * intros ->. assumption.
  - intros Hnin. destruct Hcase as [(-> & _)|(Hrng & Hhit & _)]; [reflexivity|].
    exfalso. apply Hnin. apply elem_of_take_load; [lia|]. eauto.
Qed.

Lemma poly_find_edge_symmetric_witness :
  exists r,
    poly_find_edge cube 2 0 = Some r /\
    poly_find_edge cube 0 2 = Some r /\
    (canonical 2 0 ∈ take (Z.to_nat cube.(E)) cube.(e) ->
       0 <= r < cube.(E) /\
       forall k, 0 <= k < cube.(E) ->
         (load cube.(e) k = Some (canonical 2 0) <-> k = r)) /\
    (canonical 2 0 ∉ take (Z.to_nat cube.(E)) cube.(e) -> r = 255).
Proof.
  apply (poly_find_edge_symmetric cube 2 0).
  exists cube_seed. split; vm_compute; reflexivity.
Defined.

(** *** poly_init_cube *)

(** Split the first [n] cells off a list whose length is known. *)
Tactic Notation "expose" ident(l) integer(n) :=
  do n (destruct l as [|? l]; [discriminate|]).

Ltac expose_row Hrows :=
  match type of Hrows with
  | Forall _ (?row :: _) =>
      let Hrow := fresh "Hrow" in
      apply Forall_cons_1 in Hrows as [Hrow Hrows];
      do 3 (destruct row as [|? row]; [discriminate|]); clear Hrow
  end.

(** C2, as the code has it: [poly_init_cube] seeds the cube with 12
    triangles, so whatever the buffer held it returns with [V = 8],
    [F = 12] and, the 6 face diagonals being edges too, [E = 18]. *)
Theorem poly_init_cube_counts p :
  shape p = true ->
  exists p',
    poly_init_cube p = Some p' /\
    p'.(V) = 8 /\ p'.(E) = 18 /\ p'.(F) = 12.
Proof.
  intros Hshape.
  destruct (shape_spec p Hshape) as (Hv & Hfv & Hf & Hrows & He & He2f).
  destruct p as [V0 v0 F0 fv0 f0 E0 e0 e2f0]. cbn [v fv f e e2f] in *.
  expose v0 8. expose fv0 12. expose e0 18. expose f0 12.
  do 12 expose_row Hrows.
  clear. vm_compute. eexists. split; [reflexivity|]. repeat split.
Qed.

Lemma poly_init_cube_counts_witness :
  exists p',
    poly_init_cube zeroed = Some p' /\
    p'.(V) = 8 /\ p'.(E) = 18 /\ p'.(F) = 12.
Proof. apply (poly_init_cube_counts zeroed). reflexivity. Defined.

(** C2 as stated fails on a fresh buffer: the counts are not those of
    the quad cube. *)
Lemma poly_init_cube_not_quads :
  exists p',
    poly_init_cube zeroed = Some p' /\
    ~ (p'.(V) = 8 /\ p'.(E) = 12 /\ p'.(F) = 6).
Proof.
  exists cube. split; [vm_compute; reflexivity|].
  intros (_ & HE & _). vm_compute in HE. discriminate.
Qed.

(** The 6-quad form [poly_init_cube4] is the one with 12 edges and 6
    faces. *)
Lemma poly_init_cube4_counts :
  exists p',
    poly_init_cube4 zeroed = Some p' /\
    p'.(V) = 8 /\ p'.(E) = 12 /\ p'.(F) = 6.
Proof. vm_compute. eexists. split; [reflexivity|]. repeat split. Qed.

(** *** poly_dual's guard *)

(** C10, as the code has it: when [in->F > POLY_MAX_V] or
    [in->V > POLY_MAX_F], [poly_dual] returns at once with [out] as it
    was.  [poly_init_octahedron] and [poly_init_dodecahedron] return
    what [poly_dual] returns, and the solids they dualise (6 faces and 8
    vertices, 20 faces and 12 vertices) are under both limits.  After its
    [poly_dual] call, [poly_init_rhombitruncated_icosidodecahedron] goes
    on to [poly_radial_normalize] and [poly_prepare] its result buffer, so
    with the guard taken it returns that buffer normalised and prepared. *)
Theorem poly_dual_guard junk p_in out :
  p_in.(F) > POLY_MAX_V \/ p_in.(V) > POLY_MAX_F ->
  poly_dual junk p_in out = Some out /\
  rhombitruncated_finish junk p_in out
    = (poly_radial_normalize out ≫= poly_prepare) /\
  (forall avail p, exists tmp,
     poly_init_cube4 zeroed = Some tmp /\
     tmp.(F) = 6 /\ tmp.(V) = 8 /\
     poly_init_octahedron junk (Datatypes.S avail) p = poly_dual junk tmp p) /\
  (forall avail p, exists tmp,
     poly_init_icosahedron zeroed = Some tmp /\
     tmp.(F) = 20 /\ tmp.(V) = 12 /\
     poly_init_dodecahedron junk (Datatypes.S avail) p = poly_dual junk tmp p).
Proof.
  intros Hguard.
  assert (Hdual : poly_dual junk p_in out = Some out).
  { unfold poly_dual.
    assert (Hg : (p_in.(F) >? POLY_MAX_V) || (p_in.(V) >? POLY_MAX_F) = true).
    { apply orb_true_iff. rewrite !Z.gtb_ltb, !Z.ltb_lt. lia. }
    now rewrite Hg. }
  split; [exact Hdual|]. split.
  { unfold rhombitruncated_finish. rewrite Hdual. reflexivity. }
  split.
  - intros avail p.
    assert (Hc : exists tmp, poly_init_cube4 zeroed = Some tmp /\
                             tmp.(F) = 6 /\ tmp.(V) = 8).
    { vm_compute. eexists. split; [reflexivity|]. split; reflexivity. }
    destruct Hc as (tmp & Htmp & HF & HV). exists tmp.
    split; [assumption|]. split; [assumption|]. split; [assumption|].
    unfold poly_init_octahedron. rewrite Htmp. reflexivity.
  - intros avail p.
    assert (Hc : exists tmp, poly_init_icosahedron zeroed = Some tmp /\
                             tmp.(F) = 20 /\ tmp.(V) = 12).
    { vm_compute. eexists. split; [reflexivity|]. split; reflexivity. }
    destruct Hc as (tmp & Htmp & HF & HV). exists tmp.
    split; [assumption|]. split; [assumption|]. split; [assumption|].
    unfold poly_init_dodecahedron. rewrite Htmp. reflexivity.
Qed.

Lemma poly_dual_guard_witness :
  oversized.(V) > POLY_MAX_F /\
  poly_dual zero_junk oversized zeroed = Some zeroed /\
  rhombitruncated_finish zero_junk oversized zeroed
    = (poly_radial_normalize zeroed ≫= poly_prepare).
Proof.
  assert (Hg : oversized.(F) > POLY_MAX_V \/ oversized.(V) > POLY_MAX_F).
  { right. vm_compute. reflexivity. }
  split; [vm_compute; reflexivity|].
  split; [exact (proj1 (poly_dual_guard zero_junk oversized zeroed Hg))|].
  exact (proj1 (proj2 (poly_dual_guard zero_junk oversized zeroed Hg))).
Defined.

(** C10 as stated fails for the last constructor: with the guard taken,
    what follows [poly_dual] in
    [poly_init_rhombitruncated_icosidodecahedron] turns a zero-filled
    result buffer into one whose [e2f] table is all [0xFF]. *)
Lemma rhombitruncated_buffer_modified :
  oversized.(V) > POLY_MAX_F /\
  exists p',
    rhombitruncated_finish zero_junk oversized zeroed = Some p' /\
    p' <> zeroed /\
    load p'.(e2f) 0 = Some (255, 255) /\ load zeroed.(e2f) 0 = Some (0, 0).
Proof.
  split; [vm_compute; reflexivity|].
  eexists. split; [vm_compute; reflexivity|].
  split; [|split; vm_compute; reflexivity].
  intros H. apply (f_equal (fun p => load p.(e2f) 0)) in H.
  vm_compute in H. discriminate.
Qed.

(** *** poly_truncate *)

Lemma length_fresh junk n : 0 <= n -> Z.of_nat (length (fresh junk n)) = n.
Proof. intros Hn. unfold fresh. rewrite length_fmap, length_seqZ. lia. Qed.

Lemma shape_laid_out p : shape p = true -> laid_out p.
Proof.
  intros H. destruct (shape_spec p H) as (?&?&?&?&?&?). repeat split; assumption.
Qed.

Lemma store2_ok arr i j x :
  length arr = 120%nat -> Forall (fun row => length row = 10%nat) arr ->
  0 <= i < 120 -> 0 <= j < 10 ->
  exists arr',
    store2 arr i j x = Some arr' /\
    length arr' = 120%nat /\ Forall (fun row => length row = 10%nat) arr'.
Proof.
  intros Hlen Hrows Hi Hj. unfold store2.
  rewrite (load_total arr i) by lia. cbn [mbind option_bind].
  assert (Hrow : length (arr !!! Z.to_nat i) = 10%nat).
  { apply (Forall_lookup_1 _ _ (Z.to_nat i) _ Hrows).
    apply list_lookup_lookup_total_lt. lia. }
  rewrite store_ok by lia. cbn [mbind option_bind].
  rewrite store_ok by lia.
  eexists. split; [reflexivity|]. split; [now rewrite length_insert|].
  apply Forall_insert; [assumption|]. now rewrite length_insert.
Qed.

(** Step 2: two cut points per edge. *)
Lemma truncate_cut_loop_ok junk tmp t out :
  tables_ok tmp -> length tmp.(v) = 200%nat ->
  Forall (fun ed => 0 <= ed.(a) < 200 /\ 0 <= ed.(b) < 200)
    (take (Z.to_nat tmp.(E)) tmp.(e)) ->
  2 * tmp.(E) <= 200 ->
  laid_out out ->
  exists out1 cutA cutB,
    for_range 0 tmp.(E) (truncate_cut_edge tmp t)
      (set_V 0 out, fresh junk POLY_MAX_E, fresh junk POLY_MAX_E)
    = Some (out1, cutA, cutB) /\
    out1.(V) = 2 * tmp.(E) /\ laid_out out1 /\
    length cutA = 300%nat /\ length cutB = 300%nat.
Proof.
  intros (Hle & _ & HE) Hlv Hends H2E Hout.
  loop_inv (fun (i : Z) (s : Polyhedron * list Z * list Z) =>
    (fst (fst s)).(V) = 2 * i /\ laid_out (fst (fst s)) /\
    length (snd (fst s)) = 300%nat /\ length (snd s) = 300%nat).
  - lia.
  - cbn [fst snd]. split; [reflexivity|]. split; [exact Hout|].
    pose proof (length_fresh junk POLY_MAX_E ltac:(unfold POLY_MAX_E; lia)).
    unfold POLY_MAX_E in *. split; lia.
  - intros i [[o cA] cB] Hi (HV & Hlo & HcA & HcB). cbn [fst snd] in *.
    destruct o as [oV ov oF ofv ofc oE oe oe2f].
    destruct Hlo as (Hov & Hofv & Hof & Horows & Hoe). cbn in HV, Hov, Hofv, Hof, Horows, Hoe.
    subst oV. unfold truncate_cut_edge.
    destruct (load_ok tmp.(e) i) as [ed Hed]; [lia|]. rewrite Hed.
    cbn [mbind option_bind].
    assert (Hin : ed ∈ take (Z.to_nat tmp.(E)) tmp.(e)).
    { apply elem_of_take_load; [lia|]. exists i. split; [lia|assumption]. }
    rewrite list.Forall_forall in Hends. destruct (Hends ed Hin) as (Ha & Hb).
    unfold u8. rewrite (Z.mod_small (a ed)), (Z.mod_small (b ed)) by lia.
    destruct (load_ok tmp.(v) (a ed)) as [pa Hpa]; [lia|]. rewrite Hpa.
    destruct (load_ok tmp.(v) (b ed)) as [pb Hpb]; [lia|]. rewrite Hpb.
    cbn [mbind option_bind set_V set_v V v F fv f E e e2f].
    rewrite (Z.mod_small (2 * i + 1)) by lia.
    rewrite (store_ok ov) by lia. cbn [mbind option_bind].
    rewrite (store_ok cA) by lia. cbn [mbind option_bind].
    rewrite (store_ok (<[_ := _]> ov)) by (rewrite length_insert; lia).
    cbn [mbind option_bind].
    rewrite (store_ok cB) by lia. cbn [mbind option_bind].
    eexists. split; [reflexivity|]. cbn [fst snd V v fv f e].
    rewrite (Z.mod_small (2 * i + 1 + 1)) by lia.
    split; [cbn; lia|]. split.
    + unfold laid_out. cbn. rewrite !length_insert. repeat split; assumption.
    + rewrite !length_insert. split; assumption.
  - destruct r as [[o cA] cB]. cbn [fst snd] in Hinv.
    destruct Hinv as (HV & Hlo & HcA & HcB).
    exists o, cA, cB. auto.
Qed.

Lemma poly_find_edge_range p v0 v1 :
  tables_ok p ->
  exists eidx, poly_find_edge p v0 v1 = Some eidx /\ 0 <= eidx < 256.
Proof.
  intros (Hle & _ & HE). rewrite poly_find_edge_canonical.
  destruct (find_edge_loop_spec p (Z.min v0 v1) (Z.max v0 v1)) as (r & Hr & Hcase).
  { unfold POLY_MAX_E. lia. }
  { assumption. }
  exists r. split; [assumption|]. destruct Hcase as [(-> & _)|(? & _)]; lia.
Qed.

Lemma cut_near_ok tmp cutA cutB vi eidx :
  length tmp.(e) = 300%nat -> length cutA = 300%nat -> length cutB = 300%nat ->
  0 <= eidx < 300 ->
  exists x, cut_near tmp cutA cutB vi eidx = Some x.
Proof.
  intros He HA HB Hi. unfold cut_near.
  destruct (load_ok tmp.(e) eidx) as [ed Hed]; [lia|]. rewrite Hed.
  cbn [mbind option_bind].
  destruct (vi =? a ed); apply load_ok; lia.
Qed.

(** Writing corner [i] of the face under construction. *)
Lemma write_corner_ok (q : Polyhedron) i x :
  laid_out q -> 0 <= q.(F) < 120 -> 0 <= i < 10 ->
  exists f',
    store2 q.(f) q.(F) i x = Some f' /\
    laid_out (set_f f' q).
Proof.
  intros (Hv & Hfv & Hf & Hrows & He) HF Hi.
  destruct (store2_ok q.(f) q.(F) i x Hf Hrows HF Hi) as (f' & Hst & Hl & Hr).
  exists f'. split; [assumption|]. repeat split; assumption.
Qed.

(** Step 3a, one face. *)
Lemma truncate_face_ok tmp cutA cutB fi o :
  faces_fit tmp -> tables_ok tmp ->
  length cutA = 300%nat -> length cutB = 300%nat ->
  0 <= fi < tmp.(F) ->
  laid_out o -> o.(F) = fi -> sizes_ok o ->
  exists o',
    truncate_face tmp cutA cutB fi o = Some o' /\
    o'.(V) = o.(V) /\ o'.(F) = fi + 1 /\ laid_out o' /\ sizes_ok o'.
Proof.
  intros Hfit Hok HA HB Hfi Hlo HoF Hsz.
  pose proof Hfit as (Hlfv & Hlf & Hrows & HF & Hfv).
  pose proof Hok as (Hle & _ & HE).
  pose proof Hlo as (Hov & Hofv & Hof & Horows & Hoe).
  specialize (Hfv fi Hfi). unfold truncate_face.
  rewrite (load_total tmp.(fv) fi) by lia. cbn [mbind option_bind].
  set (n := tmp.(fv) !!! Z.to_nat fi) in *.
  rewrite store_ok by lia. cbn [mbind option_bind].
  set (o1 := set_fv _ o).
  loop_inv (fun (_ : Z) (q : Polyhedron) =>
    q.(V) = o.(V) /\ q.(F) = fi /\ q.(fv) = o1.(fv) /\ laid_out q).
  - lia.
  - split; [reflexivity|]. split; [exact HoF|]. split; [reflexivity|].
    unfold laid_out, o1. cbn. rewrite length_insert. repeat split; assumption.
  - intros i q Hi (HqV & HqF & Hqfv & Hqlo).
    assert (Hmod : 0 <= (i + 1) mod n < n) by (apply Z.mod_pos_bound; lia).
    rewrite (load2_corner tmp fi i), (load2_corner tmp fi ((i + 1) mod n))
      by (assumption || lia).
    cbn [mbind option_bind].
    match goal with |- context [poly_find_edge tmp ?x ?y] =>
      destruct (poly_find_edge_range tmp x y Hok) as (eidx & Hfe & Heidx) end.
    rewrite Hfe. cbn [mbind option_bind].
    destruct (cut_near_ok tmp cutA cutB (corner tmp fi i) eidx Hle HA HB
                ltac:(lia)) as (x & Hx).
    rewrite Hx. cbn [mbind option_bind].
    destruct (write_corner_ok q i x Hqlo ltac:(lia) ltac:(lia)) as (f' & Hst & Hlo').
    rewrite Hst. cbn [mbind option_bind].
    eexists. split; [reflexivity|]. repeat split; assumption || apply Hlo'.
  - destruct Hinv as (HrV & HrF & Hrfv & Hrlo). cbn [mbind option_bind].
    eexists. split; [reflexivity|].
    unfold u8. rewrite HrF, Z.mod_small by lia.
    split; [exact HrV|]. split; [reflexivity|]. split.
    + destruct Hrlo as (?&?&?&?&?). repeat split; assumption.
    + intros g Hg. cbn [F fv set_F] in *. rewrite Hrfv. unfold o1. cbn [fv set_fv].
      rewrite HoF. destruct (Z.eq_dec g fi) as [->|Hne].
      * rewrite list_lookup_total_insert_eq by lia. exact Hfv.
      * rewrite list_lookup_total_insert_ne by lia. apply Hsz. lia.
Qed.

(** Step 3a, all faces. *)
Lemma truncate_faces_ok tmp cutA cutB o :
  faces_fit tmp -> tables_ok tmp ->
  length cutA = 300%nat -> length cutB = 300%nat ->
  laid_out o ->
  exists o',
    for_range 0 tmp.(F) (truncate_face tmp cutA cutB) (set_F 0 o) = Some o' /\
    o'.(V) = o.(V) /\ o'.(F) = tmp.(F) /\ laid_out o' /\ sizes_ok o'.
Proof.
  intros Hfit Hok HA HB Hlo. pose proof Hfit as (_ & _ & _ & HF & _).
  loop_inv (fun (fi : Z) (q : Polyhedron) =>
    q.(V) = o.(V) /\ q.(F) = fi /\ laid_out q /\ sizes_ok q).
  - lia.
  - split; [reflexivity|]. split; [reflexivity|]. split.
    + destruct Hlo as (?&?&?&?&?). repeat split; assumption.
    + intros g Hg. cbn in Hg. lia.
  - intros fi q Hfi (HqV & HqF & Hqlo & Hqsz).
    destruct (truncate_face_ok tmp cutA cutB fi q Hfit Hok HA HB Hfi Hqlo HqF Hqsz)
      as (q' & Hrun & HV' & HF' & Hlo' & Hsz').
    exists q'. split; [assumption|]. split; [congruence|]. auto.
  - exists r. split; [reflexivity|]. destruct Hinv as (?&?&?&?). auto.
Qed.

(** How many of the first [n] edges end in [vi]. *)
Lemma touching_take_S (l : list Edge) vi n ed :
  l !! n = Some ed ->
  length (List.filter (touches vi) (take (Datatypes.S n) l))
  = (length (List.filter (touches vi) (take n l))
     + if touches vi ed then 1 else 0)%nat.
Proof.
  intros H. rewrite (take_S_r _ _ _ H), List.filter_app, length_app. cbn.
  destruct (touches vi ed); reflexivity.
Qed.

Lemma touching_take_le (l : list Edge) vi n m :
  (n <= m)%nat ->
  (length (List.filter (touches vi) (take n l))
   <= length (List.filter (touches vi) (take m l)))%nat.
Proof.
  intros Hnm. replace m with (n + (m - n))%nat by lia.
  rewrite <- take_take_drop, List.filter_app, length_app. lia.
Qed.

(** The edges around one vertex: [cnt] is its valence, and the first
    [cnt] cells of [inc] hold edge indices. *)
Lemma incident_edges_ok junk tmp vi :
  tables_ok tmp -> valence tmp vi <= 10 ->
  exists inc cnt,
    incident_edges junk tmp vi = Some (inc, cnt) /\
    length inc = 10%nat /\ 0 <= cnt <= 10 /\
    forall k, 0 <= k < cnt -> 0 <= inc !!! Z.to_nat k < 300.
Proof.
  intros (Hle & _ & HE) Hval. unfold incident_edges, valence in *.
  loop_inv (fun (ei : Z) (s : list Z * Z) =>
    length (fst s) = 10%nat /\
    snd s = Z.of_nat (length (List.filter (touches vi)
                                (take (Z.to_nat ei) tmp.(e)))) /\
    forall k, 0 <= k < snd s -> 0 <= fst s !!! Z.to_nat k < 300).
  - lia.
  - cbn [fst snd]. split.
    + pose proof (length_fresh junk POLY_MAX_FV ltac:(unfold POLY_MAX_FV; lia)).
      unfold POLY_MAX_FV in *. lia.
    + split; [reflexivity|]. intros k Hk. cbn in Hk. lia.
  - intros ei [inc cnt] Hei (Hlen & Hcnt & Hent). cbn [fst snd] in *.
    destruct (load_ok tmp.(e) ei) as [ed Hed]; [lia|]. rewrite Hed.
    cbn [mbind option_bind].
    assert (Hed' : tmp.(e) !! Z.to_nat ei = Some ed).
    { unfold load in Hed. destruct (0 <=? ei); [assumption|discriminate]. }
    pose proof (touching_take_S tmp.(e) vi (Z.to_nat ei) ed Hed') as HS.
    pose proof (touching_take_le tmp.(e) vi (Datatypes.S (Z.to_nat ei))
                  (Z.to_nat tmp.(E)) ltac:(lia)) as Hmono.
    replace (Z.to_nat (ei + 1)) with (Datatypes.S (Z.to_nat ei)) by lia.
    fold (touches vi ed). destruct (touches vi ed) eqn:Ht.
    + rewrite store_ok by lia. cbn [mbind option_bind].
      eexists. split; [reflexivity|]. cbn [fst snd].
      unfold u8. rewrite (Z.mod_small ei), (Z.mod_small (cnt + 1)) by lia.
      split; [now rewrite length_insert|]. split; [lia|].
      intros k Hk. destruct (Z.eq_dec k cnt) as [->|Hne].
      * rewrite list_lookup_total_insert_eq by lia. lia.
      * rewrite list_lookup_total_insert_ne by lia. apply Hent. lia.
    + eexists. split; [reflexivity|]. cbn [fst snd].
      split; [assumption|]. split; [lia|]. assumption.
  - destruct r as [inc cnt]. cbn [fst snd] in Hinv.
    destruct Hinv as (Hlen & Hcnt & Hent).
    exists inc, cnt. split; [reflexivity|]. split; [assumption|].
    split; [lia|]. assumption.
Qed.

(** Step 3b, one vertex. *)
Lemma truncate_vertex_ok junk tmp cutA cutB vi o :
  tables_ok tmp -> valence tmp vi <= 10 ->
  length cutA = 300%nat -> length cutB = 300%nat ->
  laid_out o -> 0 <= o.(F) < 120 -> sizes_ok o ->
  exists o',
    truncate_vertex junk tmp cutA cutB vi o = Some o' /\
    o'.(V) = o.(V) /\ o'.(F) = o.(F) + 1 /\ laid_out o' /\ sizes_ok o'.
Proof.
  intros Hok Hval HA HB Hlo HoF Hsz.
  pose proof Hok as (Hle & _ & HE).
  pose proof Hlo as (Hov & Hofv & Hof & Horows & Hoe).
  unfold truncate_vertex.
  destruct (incident_edges_ok junk tmp vi Hok Hval)
    as (inc & cnt & Hinc & Hlinc & Hcnt & Hent).
  rewrite Hinc. cbn [mbind option_bind fst snd].
  rewrite store_ok by lia. cbn [mbind option_bind].
  set (o1 := set_fv _ o).
  loop_inv (fun (_ : Z) (q : Polyhedron) =>
    q.(V) = o.(V) /\ q.(F) = o.(F) /\ q.(fv) = o1.(fv) /\ laid_out q).
  - lia.
  - split; [reflexivity|]. split; [reflexivity|]. split; [reflexivity|].
    unfold laid_out, o1. cbn. rewrite length_insert. repeat split; assumption.
  - intros k q Hk (HqV & HqF & Hqfv & Hqlo).
    rewrite (load_total inc k) by lia. cbn [mbind option_bind].
    destruct (cut_near_ok tmp cutA cutB vi (inc !!! Z.to_nat k) Hle HA HB
                (Hent k Hk)) as (x & Hx).
    rewrite Hx. cbn [mbind option_bind].
    destruct (write_corner_ok q k x Hqlo ltac:(lia) ltac:(lia)) as (f' & Hst & Hlo').
    rewrite Hst. cbn [mbind option_bind].
    eexists. split; [reflexivity|]. repeat split; assumption || apply Hlo'.
  - destruct Hinv as (HrV & HrF & Hrfv & Hrlo). cbn [mbind option_bind].
    eexists. split; [reflexivity|].
    unfold u8. rewrite HrF, Z.mod_small by lia.
    split; [exact HrV|]. split; [reflexivity|]. split.
    + destruct Hrlo as (?&?&?&?&?). repeat split; assumption.
    + intros g Hg. cbn [F fv set_F] in *. rewrite Hrfv. unfold o1. cbn [fv set_fv].
      destruct (Z.eq_dec g o.(F)) as [->|Hne].
      * rewrite list_lookup_total_insert_eq by lia. exact Hcnt.
      * rewrite list_lookup_total_insert_ne by lia. apply Hsz. lia.
Qed.

(** Step 3b, all vertices. *)
Lemma truncate_vertices_ok junk tmp cutA cutB o :
  tables_ok tmp -> 0 <= tmp.(V) ->
  (forall vi, 0 <= vi < tmp.(V) -> valence tmp vi <= 10) ->
  length cutA = 300%nat -> length cutB = 300%nat ->
  laid_out o -> 0 <= o.(F) -> o.(F) + tmp.(V) <= 120 -> sizes_ok o ->
  exists o',
    for_range 0 tmp.(V) (truncate_vertex junk tmp cutA cutB) o = Some o' /\
    o'.(V) = o.(V) /\ o'.(F) = o.(F) + tmp.(V) /\ laid_out o' /\ sizes_ok o'.
Proof.
  intros Hok HV Hval HA HB Hlo HF0 HFV Hsz.
  loop_inv (fun (vi : Z) (q : Polyhedron) =>
    q.(V) = o.(V) /\ q.(F) = o.(F) + vi /\ laid_out q /\ sizes_ok q).
  - lia.
  - split; [reflexivity|]. split; [lia|]. split; assumption.
  - intros vi q Hvi (HqV & HqF & Hqlo & Hqsz).
    destruct (truncate_vertex_ok junk tmp cutA cutB vi q Hok (Hval vi Hvi) HA HB
                Hqlo ltac:(lia) Hqsz)
      as (q' & Hrun & HV' & HF' & Hlo' & Hsz').
    exists q'. split; [assumption|]. split; [congruence|].
    split; [lia|]. auto.
  - exists r. split; [reflexivity|]. destruct Hinv as (?&?&?&?). auto.
Qed.

(** The endpoints of every edge are corners, hence vertices. *)
Lemma add_edge_Forall (P : Edge -> Prop) tbl pair :
  Forall P tbl -> P pair -> Forall P (add_edge tbl pair).
Proof.
  intros Htbl Hpair. unfold add_edge.
  destruct (decide _); [assumption|].
  destruct (decide _); [|constructor].
  apply Forall_app. split; [assumption|]. now constructor.
Qed.

Lemma foldl_add_edge_Forall (P : Edge -> Prop) pairs tbl :
  Forall P tbl -> Forall P pairs -> Forall P (foldl add_edge tbl pairs).
Proof.
  revert tbl. induction pairs as [|pair pairs IH]; intros tbl Htbl Hpairs; cbn.
  - assumption.
  - apply Forall_cons_1 in Hpairs as [Hpair Hpairs].
    apply IH; [|assumption]. now apply add_edge_Forall.
Qed.

Lemma edge_table_bounded p :
  corners_ok p = true ->
  Forall (fun ed => 0 <= ed.(a) < p.(V) /\ 0 <= ed.(b) < p.(V)) (edge_table p).
Proof.
  intros Hc. apply foldl_add_edge_Forall; [constructor|].
  unfold all_pairs. apply Forall_concat, Forall_fmap, list.Forall_forall.
  intros fi Hfi. unfold face_pairs. apply Forall_fmap, list.Forall_forall.
  intros i Hi. cbn.
  apply elem_of_seqZ in Hfi, Hi.
  set (n := p.(fv) !!! Z.to_nat fi) in *.
  assert (Hmod : 0 <= (i + 1) mod n < n) by (apply Z.mod_pos_bound; lia).
  unfold corners_ok in Hc. rewrite forallb_forall in Hc.
  assert (Hrow := Hc fi ltac:(apply list_elem_of_In, elem_of_seqZ; lia)).
  rewrite forallb_forall in Hrow. fold n in Hrow.
  assert (H1 := Hrow i ltac:(apply list_elem_of_In, elem_of_seqZ; lia)).
  assert (H2 := Hrow ((i + 1) mod n)
                  ltac:(apply list_elem_of_In, elem_of_seqZ; lia)).
  cbn beta in H1, H2.
  apply andb_prop in H1 as [H1a%Z.leb_le H1b%Z.ltb_lt].
  apply andb_prop in H2 as [H2a%Z.leb_le H2b%Z.ltb_lt].
  lia.
Qed.

(** C4: for a prepared input whose corners name vertices, with room in
    the pool, and with the output within the fixed capacities ([2*E]
    vertices, [F + V] faces, at most [POLY_MAX_FV] edges around a vertex),
    [poly_truncate] returns an output with exactly [2*E] vertices and
    exactly [F + V] faces. *)
Theorem poly_truncate_counts junk avail p_in out t :
  prepared p_in ->
  corners_ok p_in = true ->
  valence_ok p_in = true ->
  shape out = true ->
  (0 < avail)%nat ->
  2 * p_in.(E) <= POLY_MAX_V ->
  p_in.(F) + p_in.(V) <= POLY_MAX_F ->
  exists out',
    poly_truncate junk avail p_in out t = Some out' /\
    out'.(V) = 2 * p_in.(E) /\
    out'.(F) = p_in.(F) + p_in.(V).
Proof.
  intros Hprep Hcorn Hval Hshape Havail H2E HFV.
  unfold POLY_MAX_V, POLY_MAX_F in *.
  destruct (prepared_spec p_in Hprep) as (Hfit & Hlv & Hok & HV & Htbl).
  pose proof Hok as (Hle & _ & HE).
  destruct (poly_prepare_ok p_in Hfit Hlv Hle HV)
    as (tmp & Htmp & Hsame & Htv & Htok & Httbl).
  pose proof Hsame as (HtV & HtF & Htfv & Htf).
  pose proof Htok as (Htle & _ & HtE).
  assert (HEeq : tmp.(E) = p_in.(E)).
  { assert (Hl : length (take (Z.to_nat tmp.(E)) tmp.(e))
                 = length (take (Z.to_nat p_in.(E)) p_in.(e))) by congruence.
    rewrite !length_take in Hl. lia. }
  assert (Hends : Forall (fun ed => 0 <= ed.(a) < 200 /\ 0 <= ed.(b) < 200)
                    (take (Z.to_nat tmp.(E)) tmp.(e))).
  { rewrite Httbl.
    eapply List.Forall_impl; [|exact (edge_table_bounded p_in Hcorn)].
    intros ed. cbn. lia. }
  assert (Hvalence : forall vi, 0 <= vi < tmp.(V) -> valence tmp vi <= 10).
  { intros vi Hvi. unfold valence. rewrite Httbl, <- Htbl.
    unfold valence_ok in Hval. rewrite forallb_forall in Hval.
    specialize (Hval vi ltac:(apply list_elem_of_In, elem_of_seqZ; lia)).
    apply Z.leb_le in Hval. exact Hval. }
  destruct avail as [|avail]; [lia|]. unfold poly_truncate.
  rewrite Htmp. cbn [mbind option_bind].
  destruct (truncate_cut_loop_ok junk tmp t out Htok Htv Hends ltac:(lia)
              (shape_laid_out out Hshape))
    as (o1 & cutA & cutB & Hrun1 & HV1 & Hlo1 & HA & HB).
  rewrite Hrun1. cbn [mbind option_bind].
  destruct (truncate_faces_ok tmp cutA cutB o1 (same_faces_fit _ _ Hsame Hfit)
              Htok HA HB Hlo1)
    as (o2 & Hrun2 & HV2 & HF2 & Hlo2 & Hsz2).
  rewrite Hrun2. cbn [mbind option_bind].
  destruct Hfit as (_ & _ & _ & HFr & _).
  destruct (truncate_vertices_ok junk tmp cutA cutB o2 Htok ltac:(lia) Hvalence
              HA HB Hlo2 ltac:(lia) ltac:(lia) Hsz2)
    as (o3 & Hrun3 & HV3 & HF3 & Hlo3 & Hsz3).
  rewrite Hrun3. cbn [mbind option_bind].
  pose proof Hlo3 as (Hv3 & Hfv3 & Hf3 & Hrows3 & He3).
  destruct (poly_radial_normalize_ok o3 Hv3 ltac:(lia)) as (v' & -> & Hv').
  cbn [mbind option_bind].
  destruct (poly_prepare_ok (set_v v' o3)) as (o5 & Hrun5 & Hsame5 & _).
  { unfold faces_fit. cbn. repeat split; try assumption; try lia;
      apply Hsz3; lia. }
  { exact Hv'. }
  { exact He3. }
  { cbn. lia. }
  exists o5. split; [exact Hrun5|].
  destruct Hsame5 as (HV5 & HF5 & _). cbn in HV5, HF5. lia.
Qed.

(** With the pool exhausted the call returns without touching [out]. *)
Lemma poly_truncate_pool_exhausted junk p_in out t :
  poly_truncate junk 0 p_in out t = Some out.
Proof. reflexivity. Qed.

(** Outside those capacities the call is undefined: the engine's own
    icosidodecahedron has 120 edges, and step 2 then writes [out->v[200]]. *)
Lemma poly_truncate_overflows :
  exists seed,
    poly_init_icosidodecahedron zero_junk 4 zeroed = Some seed /\
    seed.(V) = 60 /\ seed.(E) = 120 /\ seed.(F) = 32 /\
    poly_truncate zero_junk 1 seed zeroed f_half = None.
Proof.
  eexists. split; [vm_compute; reflexivity|].
  repeat split; vm_compute; reflexivity.
Qed.

Lemma poly_truncate_counts_witness :
  exists out',
    poly_truncate zero_junk 1 cube zeroed f_half = Some out' /\
    out'.(V) = 2 * cube.(E) /\
    out'.(F) = cube.(F) + cube.(V).
Proof.
  apply (poly_truncate_counts zero_junk 1 cube zeroed f_half).
  - exists cube_seed. split; vm_compute; reflexivity.
  - vm_compute. reflexivity.
  - vm_compute. reflexivity.
  - vm_compute. reflexivity.
  - lia.
  - apply Z.leb_le. vm_compute. reflexivity.
  - apply Z.leb_le. vm_compute. reflexivity.
Defined.

End TopologyFacts.
